(** * foundryvtt-rest-api-relay: the relay broker's lifecycle, routing table,
      telemetry sink and daily reset job, embedded and verified.

    Source files embedded here:
    - the telemetry module (pino logger + prom-client counter);
    - [src/cron/dailyReset.ts] ([resetDailyRequests]);
    - [src/routes/websocket.ts] ([wsRoutes]);
    - the entity router ([entityRouter] and its [createApiRoute] tables).

    The client manager (the session registry) and the route helper
    (the dispatcher) are not among these files; they are modelled from
    the specification, in modules of their own.

    Asynchronous functions are embedded in a small state-and-completion
    monad: a computation threads the observable world and finishes
    normally, by an early [return], or by throwing. *)

From stdpp Require Import gmap strings list pretty.

Open Scope string_scope.

(** ** Completions and the effect monad *)

Module Eff.

(** A JavaScript error value, reduced to what [`${error}`] prints. *)
Record Exn := Err { exn_msg : string }.

(** How a block of statements finishes. *)
Inductive Completion (A : Type) :=
| Normal (a : A)
| Return
| Throw (e : Exn).
Arguments Normal {A} a.
Arguments Return {A}.
Arguments Throw {A} e.

(** How an [async] function's promise settles. *)
Inductive Settled :=
| Resolved
| Rejected (e : Exn).

Section Monad.
Context {S : Type}.

Definition M (A : Type) : Type := S -> Completion A * S.

Definition ret {A} (a : A) : M A := fun s => (Normal a, s).

Definition bind {A B} (m : M A) (k : A -> M B) : M B :=
  fun s =>
    match m s with
    | (Normal a, s') => k a s'
    | (Return, s') => (Return, s')
    | (Throw e, s') => (Throw e, s')
    end.

Definition throw {A} (e : Exn) : M A := fun s => (Throw e, s).

(** [return;] in the middle of a function body. *)
Definition early_return {A} : M A := fun s => (Return, s).

Definition modify (g : S -> S) : M unit := fun s => (Normal tt, g s).

Definition gets {A} (g : S -> A) : M A := fun s => (Normal (g s), s).

(** [if (c) { m }] with no [else]. *)
Definition when (c : bool) (m : M unit) : M unit :=
  if c then m else ret tt.

(** [try { body } catch (e) { handler e }]: only a throw reaches the
    handler; an early return passes through. *)
Definition try_catch (body : M unit) (handler : Exn -> M unit) : M unit :=
  fun s =>
    match body s with
    | (Throw e, s') => handler e s'
    | r => r
    end.

(** [try { body } finally { fin }]: [fin] runs after every completion of
    [body]; when [fin] finishes normally the completion of [body]
    stands, otherwise the completion of [fin] replaces it. *)
Definition try_finally (body : M unit) (fin : M unit) : M unit :=
  fun s =>
    match body s with
    | (c, s') =>
        match fin s' with
        | (Normal _, s'') => (c, s'')
        | r => r
        end
    end.

(** The promise of an [async] function with the given body. *)
Definition run_async (body : M unit) (s : S) : Settled * S :=
  match body s with
  | (Normal _, s') => (Resolved, s')
  | (Return, s') => (Resolved, s')
  | (Throw e, s') => (Rejected e, s')
  end.

End Monad.

Arguments M : clear implicits.

End Eff.

Notation "'let!' x ':=' m 'in' k" := (Eff.bind m (fun x => k))
  (at level 10, x name, m at level 100, k at level 200, only parsing).
Notation "m ';;' k" := (Eff.bind m (fun _ => k))
  (at level 100, k at level 200, right associativity, only parsing).

(** ** The telemetry module *)

Module Logger.

(** Modelled from the spec: the enumeration [LogLevel] ([../types/types])
    is not among the sources; section 6 gives the sink its four methods
    [info], [warn], [error] and [debug], one level each. *)
Inductive LogLevel := DEBUG | INFO | WARN | ERROR.

#[global] Instance LogLevel_eq_dec : EqDecision LogLevel.
Proof. solve_decision. Defined.

Definition LogLevel_to_nat (l : LogLevel) : nat :=
  match l with DEBUG => 0 | INFO => 1 | WARN => 2 | ERROR => 3 end.

Definition LogLevel_of_nat (n : nat) : option LogLevel :=
  match n with
  | 0 => Some DEBUG | 1 => Some INFO | 2 => Some WARN | 3 => Some ERROR
  | _ => None
  end.

#[global] Program Instance LogLevel_countable : Countable LogLevel :=
  inj_countable LogLevel_to_nat LogLevel_of_nat _.
Next Obligation. by intros []. Qed.

(** pino's level names; [LOG_LEVEL] selects one of them as threshold. *)
Inductive PinoLevel :=
| p_trace | p_debug | p_info | p_warn | p_error | p_fatal | p_silent.

(** pino's numeric level values; [None] is [silent] (infinity). *)
Definition pino_value (l : PinoLevel) : option Z :=
  match l with
  | p_trace => Some 10%Z | p_debug => Some 20%Z | p_info => Some 30%Z
  | p_warn => Some 40%Z | p_error => Some 50%Z | p_fatal => Some 60%Z
  | p_silent => None
  end.

Definition method_value (l : LogLevel) : Z :=
  match l with
  | DEBUG => 20%Z | INFO => 30%Z | WARN => 40%Z | ERROR => 50%Z
  end.

(** [level: process.env.LOG_LEVEL || LogLevel.INFO] *)
Definition logger_level (LOG_LEVEL : option PinoLevel) : PinoLevel :=
  match LOG_LEVEL with
  | Some l => l
  | None => p_info
  end.

(** pino writes a line iff the method's level reaches the threshold. *)
Definition enabled (LOG_LEVEL : option PinoLevel) (l : LogLevel) : bool :=
  match pino_value (logger_level LOG_LEVEL) with
  | Some t => bool_decide (t ≤ method_value l)%Z
  | None => false
  end.

(** The configuration object handed to [new Counter]. *)
Record CounterConfig := {
  name : string;
  help : string;
  labelNames : list string;
}.

Definition logCounter : CounterConfig := {|
  name := "pino_logs_total";
  help := "Total number of log messages";
  labelNames := ["level"];
|}.

(** The prom-client registry, as far as this module configures it. *)
Record Registry := {
  defaultLabels : list (string * string);
  metrics : list CounterConfig;
  defaultMetrics : bool;
}.

Definition new_Registry : Registry :=
  {| defaultLabels := []; metrics := []; defaultMetrics := false |}.

Definition setDefaultLabels (ls : list (string * string)) (r : Registry) : Registry :=
  {| defaultLabels := ls; metrics := metrics r; defaultMetrics := defaultMetrics r |}.

Definition registerMetric (c : CounterConfig) (r : Registry) : Registry :=
  {| defaultLabels := defaultLabels r; metrics := metrics r ++ [c];
     defaultMetrics := defaultMetrics r |}.

Definition collectDefaultMetrics (r : Registry) : Registry :=
  {| defaultLabels := defaultLabels r; metrics := metrics r; defaultMetrics := true |}.

Definition register : Registry :=
  collectDefaultMetrics
    (registerMetric logCounter
       (setDefaultLabels [("app", "foundryvtt-rest-api-relay")] new_Registry)).

(** The mutable part: the counter's value per label and the lines pino
    has written. *)
Record LogState := {
  counts : gmap LogLevel nat;
  output : list (LogLevel * string);
}.

Definition count (st : LogState) (l : LogLevel) : nat := default 0 (counts st !! l).

(** [logCounter.inc({ level })]: add one to the series of that label. *)
Definition inc (l : LogLevel) (st : LogState) : LogState :=
  {| counts := <[l := S (count st l)]> (counts st); output := output st |}.

(** [logger.<level>(meta, message)] *)
Definition logger_write (LOG_LEVEL : option PinoLevel) (l : LogLevel)
    (message : string) (st : LogState) : LogState :=
  if enabled LOG_LEVEL l
  then {| counts := counts st; output := output st ++ [(l, message)] |}
  else st.

Section Methods.
Variable LOG_LEVEL : option PinoLevel.

Definition info (message : string) (st : LogState) : LogState :=
  logger_write LOG_LEVEL INFO message (inc INFO st).

Definition warn (message : string) (st : LogState) : LogState :=
  logger_write LOG_LEVEL WARN message (inc WARN st).

Definition error (message : string) (st : LogState) : LogState :=
  logger_write LOG_LEVEL ERROR message (inc ERROR st).

Definition debug (message : string) (st : LogState) : LogState :=
  logger_write LOG_LEVEL DEBUG message (inc DEBUG st).

(** The sink's method selected by name. *)
Definition log (l : LogLevel) : string -> LogState -> LogState :=
  match l with
  | INFO => info
  | WARN => warn
  | ERROR => error
  | DEBUG => debug
  end.
End Methods.

End Logger.


(** ** The daily reset job ([src/cron/dailyReset.ts]) *)

Module DailyReset.
Import Eff.
Export Logger(LogLevel, DEBUG, INFO, WARN, ERROR).

(** A key of the shared Redis store: its string value and, when it has a
    time to live, the instant (ms) at which it expires. *)
Record RedisEntry := {
  value : string;
  expireAt : option Z;
}.

(** Modelled from the spec: the [User] model ([../models/user]) is not
    among the sources; of the credential record of section 3 the job
    touches [requestsToday] and [lastRequestDate]. A row comes with the
    shape of the object [findAll] hands out for it, which the fallback
    loop inspects: whether it carries [setDataValue], a [requestsToday]
    property and [save]; and with whether that object is the stored
    record itself (a store that hands out its records, where every
    assignment to the object shows in the table at once) or a detached
    copy (an ORM instance, whose values reach the table with [save]). *)
Record User := {
  userId : nat;
  requestsToday : Z;
  lastRequestDate : Z;
  has_setDataValue : bool;
  has_requestsToday : bool;
  has_save : bool;
  is_stored_record : bool;
}.

(** The awaited calls of the job: commands to Redis and to the model. *)
Inductive Op :=
| RedisSetNX (key val : string) (px : Z)
| RedisSet (key val : string)
| RedisExpire (key : string) (seconds : Z)
| RedisEval (keys args : list string)
| UserUpdate
| UserCount
| UserFindOne
| UserFindAll
| UserSave (i : nat).

(** What an observer sees of a run: each call with the error it threw,
    if any, and each line handed to the log sink. *)
Inductive Event :=
| ECall (op : Op) (thrown : option Exn)
| ELog (level : LogLevel) (message : string).

(** The state shared by all instances and the trace of this run. *)
Record World := {
  store : gmap string RedisEntry;
  users : list User;
  trace : list Event;
}.

(** What is private to the running process: its environment, whether
    [getRedisClient()] ([../config/redis]) gave a client, and the clock.
    A run is taken at one instant: every [Date.now()] and [new Date()]
    of it reads [date_now]. *)
Record Env := {
  FLY_ALLOC_ID : option string;
  date_now : Z;
  redis_client : bool;
}.

(** Which awaited calls fail, and with which error. A call that fails
    has no effect on the store or the rows. *)
Definition Faults : Type := Op -> option Exn.

Definition no_faults : Faults := fun _ => None.

Definition set_store (s : gmap string RedisEntry) (w : World) : World :=
  {| store := s; users := users w; trace := trace w |}.

Definition set_users (us : list User) (w : World) : World :=
  {| store := store w; users := us; trace := trace w |}.

Definition add_event (e : Event) (w : World) : World :=
  {| store := store w; users := users w; trace := trace w ++ [e] |}.

(** *** Redis commands *)

(** A key whose expiry instant has passed reads as missing. *)
Definition live (now : Z) (s : gmap string RedisEntry) (key : string) : option RedisEntry :=
  match s !! key with
  | Some e =>
      match expireAt e with
      | Some t => if bool_decide (t ≤ now)%Z then None else Some e
      | None => Some e
      end
  | None => None
  end.

(** [SET key val NX PX px]: writes only when the key is missing; the
    reply is [null] when nothing was written. *)
Definition set_nx_px (now : Z) (key val : string) (px : Z)
    (s : gmap string RedisEntry) : option string * gmap string RedisEntry :=
  match live now s key with
  | Some _ => (None, s)
  | None => (Some "OK", <[key := {| value := val; expireAt := Some (now + px)%Z |}]> s)
  end.

(** [SET key val]: overwrites and drops any time to live. *)
Definition set_plain (key val : string) (s : gmap string RedisEntry) : gmap string RedisEntry :=
  <[key := {| value := val; expireAt := None |}]> s.

(** [EXPIRE key seconds] *)
Definition expire (now : Z) (key : string) (seconds : Z)
    (s : gmap string RedisEntry) : gmap string RedisEntry :=
  match live now s key with
  | Some e => <[key := {| value := value e; expireAt := Some (now + seconds * 1000)%Z |}]> s
  | None => s
  end.

(** The Lua script of the [finally] block, run atomically by [EVAL]:
    [if redis.call("get", KEYS[1]) == ARGV[1] then
       return redis.call("del", KEYS[1]) else return 0 end]. *)
Definition release_script (now : Z) (key arg : string)
    (s : gmap string RedisEntry) : Z * gmap string RedisEntry :=
  match live now s key with
  | Some e => if decide (value e = arg) then (1%Z, delete key s) else (0%Z, s)
  | None => (0%Z, s)
  end.

(** *** Model queries *)

(** [User.update({requestsToday: 0, lastRequestDate: new Date()},
    {where: {}})]: the empty [where] selects every row. *)
Definition reset_row (now : Z) (u : User) : User :=
  {| userId := userId u; requestsToday := 0; lastRequestDate := now;
     has_setDataValue := has_setDataValue u;
     has_requestsToday := has_requestsToday u;
     has_save := has_save u;
     is_stored_record := is_stored_record u |}.

Definition bulk_update (now : Z) (us : list User) : nat * list User :=
  (length us, map (reset_row now) us).

(** [new Date().toISOString()]: the calendar rendering is not modelled;
    the instant is printed as its millisecond count. *)
Definition toISOString (t : Z) : string := pretty t.

(** A call that throws [e]: it is recorded with its error and has no
    other effect. *)
Definition failed_call {A} (op : Op) (e : Exn) : M World A :=
  fun w => (Throw e, add_event (ECall op (Some e)) w).

Section Job.
Variable env : Env.
Variable faults : Faults.

(** An awaited call: it is recorded, and either throws the error the
    fault table holds for it or takes effect and yields its result. *)
Definition call {A} (op : Op) (effect : World -> A * World) : M World A :=
  fun w =>
    match faults op with
    | Some e => failed_call op e w
    | None =>
        match effect w with
        | (a, w') => (Normal a, add_event (ECall op None) w')
        end
    end.

Definition log (l : LogLevel) (message : string) : M World unit :=
  modify (add_event (ELog l message)).

Definition now : Z := date_now env.

Definition redis_set_nx (key val : string) (px : Z) : M World (option string) :=
  call (RedisSetNX key val px)
    (fun w => match set_nx_px now key val px (store w) with
              | (r, s) => (r, set_store s w)
              end).

Definition redis_set (key val : string) : M World unit :=
  call (RedisSet key val) (fun w => (tt, set_store (set_plain key val (store w)) w)).

Definition redis_expire (key : string) (seconds : Z) : M World unit :=
  call (RedisExpire key seconds)
    (fun w => (tt, set_store (expire now key seconds (store w)) w)).

Definition redis_eval_release (key arg : string) : M World Z :=
  call (RedisEval [key] [arg])
    (fun w => match release_script now key arg (store w) with
              | (r, s) => (r, set_store s w)
              end).

Definition User_update : M World nat :=
  call UserUpdate
    (fun w => match bulk_update now (users w) with
              | (n, us) => (n, set_users us w)
              end).

Definition User_count : M World nat :=
  call UserCount (fun w => (length (users w), w)).

Definition User_findOne : M World (option User) :=
  call UserFindOne (fun w => (head (users w), w)).

Definition User_findAll : M World (list User) :=
  call UserFindAll (fun w => (users w, w)).

(** An assignment to the object of row [i] ([user.setDataValue(...)]
    or [user.requestsToday = 0; user.lastRequestDate = new Date()])
    that leaves the object as [u]. Nothing is awaited and nothing can
    be seen of it from outside, except that on an object that is the
    stored record itself the row changes with it. *)
Definition assign (i : nat) (u : User) : M World unit :=
  if is_stored_record u then
    modify (fun w => set_users (<[i := u]> (users w)) w)
  else ret tt.

(** [await user.save()] for the object of row [i]: the object is
    written back to its row; on an object without [save] the call is a
    [TypeError]. *)
Definition user_save (i : nat) (u : User) : M World unit :=
  if has_save u then
    call (UserSave i) (fun w => (tt, set_users (<[i := u]> (users w)) w))
  else
    failed_call (UserSave i) (Err "TypeError: user.save is not a function").

(** *** The job *)

Definition lockKey : string := "daily_reset_lock".

(** [process.env.FLY_ALLOC_ID || 'local'] *)
Definition instance_name : string :=
  match FLY_ALLOC_ID env with
  | Some s => if decide (s = EmptyString) then "local" else s
  | None => "local"
  end.

Definition lockValue : string := instance_name ++ "_" ++ pretty now.

Definition lockTTL : Z := 300.

(** Lines 16-32: try to take the lock, or go on without one. *)
Definition acquire_lock : M World unit :=
  if redis_client env then
    let! lockAcquired := redis_set_nx lockKey lockValue (lockTTL * 1000) in
    match lockAcquired with
    | None =>
        log INFO "Daily reset already running on another instance - skipping" ;;
        early_return
    | Some _ =>
        log INFO ("Acquired daily reset lock on instance " ++ instance_name)
    end
  else
    log WARN "Redis not available - proceeding with reset (single instance mode)".

(** Lines 34-71: bulk update, verification, completion stamp. *)
Definition bulk_reset : M World unit :=
  let startTime := now in
  log INFO ("Starting daily API request count reset for all users at " ++ toISOString now) ;;
  let! updatedCount := User_update in
  let! totalUsers := User_count in
  let executionTime := (now - startTime)%Z in
  log INFO ("Successfully reset daily request count for " ++ pretty updatedCount
            ++ " of " ++ pretty totalUsers ++ " users (took "
            ++ pretty executionTime ++ "ms)") ;;
  let! sampleUser := User_findOne in
  match sampleUser with
  | Some u =>
      let requestCount := requestsToday u in
      log INFO ("Verification - Sample user daily request count: " ++ pretty requestCount) ;;
      when (negb (bool_decide (requestCount = 0%Z)))
        (log WARN "Daily reset verification failed - some users may still have non-zero daily request counts")
  | None => ret tt
  end ;;
  when (redis_client env)
    (redis_set "last_daily_reset" (toISOString now) ;;
     redis_expire "last_daily_reset" (86400 * 2)).

Definition try_block : M World unit :=
  acquire_lock ;;
  bulk_reset.

(** Lines 84-98: the loop of the alternate method over the objects
    [findAll] returned, [i] being the row of the current one. In both
    branches the two fields are assigned before [save] is looked for
    or awaited (lines 86-87 and 91-92). *)
Fixpoint update_each (us : list User) (i : nat) (successCount : nat) : M World nat :=
  match us with
  | [] => ret successCount
  | user :: rest =>
      if has_setDataValue user then
        assign i (reset_row now user) ;;
        user_save i (reset_row now user) ;;
        update_each rest (S i) (S successCount)
      else if has_requestsToday user then
        assign i (reset_row now user) ;;
        if has_save user then
          user_save i (reset_row now user) ;;
          update_each rest (S i) (S successCount)
        else update_each rest (S i) successCount
      else update_each rest (S i) successCount
  end.

(** Lines 73-103: the [catch] block. *)
Definition catch_block (error : Exn) : M World unit :=
  log ERROR ("Error resetting daily request counts: " ++ exn_msg error) ;;
  try_catch
    (log INFO "Attempting alternate daily reset method using findAll + individual updates" ;;
     let! all := User_findAll in
     let! successCount := update_each all 0 0 in
     log INFO ("Daily recovery method successful - reset " ++ pretty successCount
               ++ " users individually"))
    (fun recoveryError =>
       log ERROR ("Daily recovery attempt also failed: " ++ exn_msg recoveryError)).

(** Lines 105-123: the [finally] block. *)
Definition finally_block : M World unit :=
  when (redis_client env)
    (try_catch
       (redis_eval_release lockKey lockValue ;;
        log INFO "Released daily reset lock")
       (fun lockError =>
          log WARN ("Error releasing daily lock: " ++ exn_msg lockError))).

(** The [try]/[catch] part alone: the state it leaves is the state in
    which the [finally] block starts. *)
Definition guarded : M World unit := try_catch try_block catch_block.

Definition resetDailyRequests (w : World) : Settled * World :=
  run_async (try_finally guarded finally_block) w.

End Job.

(** *** Observers of a trace *)

Definition is_db_write (e : Event) : bool :=
  match e with
  | ECall UserUpdate None => true
  | ECall (UserSave _) None => true
  | _ => false
  end.

Definition is_db_call (e : Event) : bool :=
  match e with
  | ECall UserUpdate _ | ECall UserCount _ | ECall UserFindOne _
  | ECall UserFindAll _ | ECall (UserSave _) _ => true
  | _ => false
  end.

Definition is_redis_call (e : Event) : bool :=
  match e with
  | ECall (RedisSetNX _ _ _) _ | ECall (RedisSet _ _) _
  | ECall (RedisExpire _ _) _ | ECall (RedisEval _ _) _ => true
  | _ => false
  end.

(** The run carried out the bulk update. *)
Definition performed_reset (t : list Event) : bool :=
  existsb (fun e => match e with ECall UserUpdate None => true | _ => false end) t.

End DailyReset.


(** ** The WebSocket lifecycle controller ([src/routes/websocket.ts]) *)

Module WsRoutes.
Import Eff.
Export Logger(LogLevel, DEBUG, INFO, WARN, ERROR).

(** What [ClientManager.addClient] hands back for a registered world. *)
Record Client := {
  client_id : string;
  client_token : string;
}.

(** What a listener installed with [ws.on] does when it fires. *)
Inductive Action :=
| ClearInterval
| RemoveClient (id : string)
| UpdateLastSeen
| LogError (id : string).

Inductive Event :=
| ELog (level : LogLevel) (message : string)
| EClose (code : Z) (reason : string)
| EValidate (id token : string)
| EAddClient (id token : string)
| ESetInterval (ms : Z)
| EOn (event : string) (listener : list Action).

(** What the environment answers during the setup of one connection:
    the query parameters of the request URL ([None] when [new URL]
    throws), the auth adapter, the client manager, and whether
    [ws.close] throws for a given code. *)
Record Conn := {
  url_params : option (list (string * string));
  validateHeadlessSession : string -> string -> Exn + bool;
  addClient : string -> string -> Exn + option Client;
  ws_close_fault : Z -> option Exn;
  WEBSOCKET_PING_INTERVAL_MS : Z;
}.

(** [url.searchParams.get(name)]: the first value given for [name]. *)
Fixpoint searchParams_get (name : string) (params : list (string * string)) : option string :=
  match params with
  | [] => None
  | (k, v) :: rest => if decide (k = name) then Some v else searchParams_get name rest
  end.

(** The test [!v] on a [string | null]: [null] and the empty string
    are falsy. *)
Definition truthy (v : option string) : option string :=
  match v with
  | Some s => if decide (s = EmptyString) then None else Some s
  | None => None
  end.

Section Connection.
Variable c : Conn.

Definition log (l : LogLevel) (message : string) : M (list Event) unit :=
  modify (fun t => (t ++ [ELog l message])%list).

Definition emit (e : Event) : M (list Event) unit :=
  modify (fun t => (t ++ [e])%list).

(** [const url = new URL(req.url || empty, base)] *)
Definition parse_url : M (list Event) (list (string * string)) :=
  match url_params c with
  | Some ps => ret ps
  | None => throw (Err "TypeError: Invalid URL")
  end.

(** [ws.close(code, reason)] *)
Definition ws_close (code : Z) (reason : string) : M (list Event) unit :=
  emit (EClose code reason) ;;
  match ws_close_fault c code with
  | Some e => throw e
  | None => ret tt
  end.

(** [await validateHeadlessSession(id, token)] *)
Definition validate (id token : string) : M (list Event) bool :=
  emit (EValidate id token) ;;
  match validateHeadlessSession c id token with
  | inl e => throw e
  | inr b => ret b
  end.

(** [await ClientManager.addClient(ws, id, token)] *)
Definition add_client (id token : string) : M (list Event) (option Client) :=
  emit (EAddClient id token) ;;
  match addClient c id token with
  | inl e => throw e
  | inr r => ret r
  end.

(** Lines 139-187: the [try] block of the connection listener. *)
Definition setup : M (list Event) unit :=
  let! params := parse_url in
  let id := searchParams_get "id" params in
  let token := searchParams_get "token" params in
  match truthy id, truthy token with
  | Some id, Some token =>
      let! isValid := validate id token in
      if negb isValid then
        log WARN ("Rejecting invalid headless client: " ++ id) ;;
        ws_close 1008 "Invalid headless session" ;;
        early_return
      else
        let! client := add_client id token in
        match client with
        | None => early_return
        | Some _ =>
            emit (ESetInterval (WEBSOCKET_PING_INTERVAL_MS c)) ;;
            emit (EOn "close" [ClearInterval; RemoveClient id]) ;;
            emit (EOn "pong" [UpdateLastSeen]) ;;
            emit (EOn "error" [ClearInterval; LogError id; RemoveClient id])
        end
  | _, _ =>
      log WARN "Rejecting WebSocket connection: missing id or token" ;;
      ws_close 1008 "Missing client ID or token" ;;
      early_return
  end.

(** Lines 188-195: the [catch] block. *)
Definition on_error (error : Exn) : M (list Event) unit :=
  log ERROR ("WebSocket connection error: " ++ exn_msg error) ;;
  try_catch (ws_close 1011 "Server error") (fun _ => ret tt).

(** The listener of [wss.on("connection", ...)], started on an empty
    trace. *)
Definition connection : Settled * list Event :=
  run_async (try_catch setup on_error) [].

End Connection.

(** *** Observers *)

Definition closed_with (code : Z) (t : list Event) : bool :=
  existsb (fun e => match e with EClose k _ => bool_decide (k = code) | _ => false end) t.

Definition called_addClient (t : list Event) : bool :=
  existsb (fun e => match e with EAddClient _ _ => true | _ => false end) t.

Definition called_validate (t : list Event) : bool :=
  existsb (fun e => match e with EValidate _ _ => true | _ => false end) t.

(** Something threw during the setup. *)
Definition setup_threw (c : Conn) : bool :=
  match setup c [] with
  | (Throw _, _) => true
  | _ => false
  end.

End WsRoutes.

(** ** The session registry *)

Module Registry.

(** Modelled from the spec: the client manager ([../core/ClientManager],
    the spec's Session registry) is not among the sources; only its
    callers in [websocket.ts] are. These definitions follow sections 3,
    4.2 and 4.3 of the specification. Sessions are objects: one lives at
    an address of the heap, and the registry maps a [clientId] to the
    address of the Session registered for it, so that "the same
    instance" is equality of addresses. *)
Record Session := {
  clientId : string;
  authToken : string;
  lastSeen : Z;
  closed : bool;
}.

(** Modelled from the spec: the process-wide registry state (section 3,
    "a concurrent mapping clientId -> Session"), with the allocator of
    Session objects. *)
Record State := {
  heap : gmap nat Session;
  registry : gmap string nat;
  next : nat;
}.


(** Modelled from the spec: what [add] returns (section 4.3,
    "Session | Rejected"); the manager is not among the sources. *)
Inductive AddResult :=
| Accepted (session : nat)
| Rejected (code : Z).

(** Modelled from the spec: the Session field [closed] of section 3,
    as [close] sets it; the Session class is not among the sources. *)
Definition mark_closed (s : Session) : Session :=
  {| clientId := clientId s; authToken := authToken s;
     lastSeen := lastSeen s; closed := true |}.


(** Modelled from the spec: [remove(clientId, session)] of section 4.3,
    "removes only if the stored Session is the same instance". *)
Definition remove (id : string) (session : nat) (st : State) : State :=
  match registry st !! id with
  | Some stored =>
      if decide (stored = session)
      then {| heap := heap st; registry := delete id (registry st); next := next st |}
      else st
  | None => st
  end.

(** Modelled from the spec: [Session.close(reason)] of section 4.2,
    "idempotent; marks closed, best-effort closes the transport,
    deregisters from the Registry". *)
Definition close (session : nat) (st : State) : State :=
  match heap st !! session with
  | Some s =>
      remove (clientId s) session
        {| heap := <[session := mark_closed s]> (heap st);
           registry := registry st; next := next st |}
  | None => st
  end.

Section Adapter.
(** The auth adapter. *)
Variable validateHeadlessSession : string -> string -> bool.

(** Modelled from the spec: [add(clientId, authToken, transport)] of
    section 4.3: "validates via the auth adapter; if valid, constructs a
    Session, atomically inserts it, and if a prior Session existed for
    that clientId closes it with reason Superseded. Returns Rejected
    with a close code if validation fails." *)
Definition add (id token : string) (now : Z) (st : State) : AddResult * State :=
  if validateHeadlessSession id token then
    let session := next st in
    let prior := registry st !! id in
    let inserted :=
      {| heap := <[session := {| clientId := id; authToken := token;
                                 lastSeen := now; closed := false |}]> (heap st);
         registry := <[id := session]> (registry st);
         next := S (next st) |} in
    (Accepted session,
     match prior with
     | Some old => close old inserted
     | None => inserted
     end)
  else (Rejected 1008, st).








End Adapter.

(** Modelled from the spec: no Session is registered beyond the mark
    of the allocator of [State]. *)
Definition allocated (st : State) : Prop :=
  ∀ id session, registry st !! id = Some session → session < next st.

End Registry.


(** ** The entity router *)

Module EntityRoutes.
Import Eff.
Export Logger(LogLevel, DEBUG, INFO, WARN, ERROR).

(** JavaScript values as they occur in parsed requests. *)
#[local] Set Warnings "-register-all".
Inductive JSValue :=
| JSUndefined
| JSNull
| JSBool (b : bool)
| JSNumber (n : Z)
| JSString (s : string)
| JSObject (fields : list (string * JSValue)).

Fixpoint lookup_field (name : string) (fields : list (string * JSValue)) : option JSValue :=
  match fields with
  | [] => None
  | (k, v) :: rest => if decide (k = name) then Some v else lookup_field name rest
  end.

(** [v.name]: a [TypeError] on [undefined] and [null], [undefined] for a
    property that is not there. *)
Definition get_prop {S} (v : JSValue) (name : string) : M S JSValue :=
  match v with
  | JSUndefined =>
      throw (Err ("TypeError: Cannot read properties of undefined (reading '" ++ name ++ "')"))
  | JSNull =>
      throw (Err ("TypeError: Cannot read properties of null (reading '" ++ name ++ "')"))
  | JSObject fields => ret (default JSUndefined (lookup_field name fields))
  | _ => ret JSUndefined
  end.

(** [v === s] for a string literal [s]. *)
Definition is_string (v : JSValue) (s : string) : bool :=
  match v with
  | JSString s' => bool_decide (s' = s)
  | _ => false
  end.

(** [`${v}`] *)
Definition to_string (v : JSValue) : string :=
  match v with
  | JSUndefined => "undefined"
  | JSNull => "null"
  | JSBool true => "true"
  | JSBool false => "false"
  | JSNumber n => pretty n
  | JSString s => s
  | JSObject _ => "[object Object]"
  end.

Inductive Source := body | query.

(** The [from] of a parameter: one source, or an array of sources. *)
Inductive From :=
| from_one (s : Source)
| from_array (l : list Source).

Definition sources (f : From) : list Source :=
  match f with
  | from_one s => [s]
  | from_array l => l
  end.

Inductive ParamType := t_string | t_number | t_boolean | t_object.

Record ParamSpec := {
  name : string;
  from : From;
  type : ParamType;
}.

(** The object [validateParams] returns to reject a request. *)
Record Rejection := {
  error : string;
  suggestion : string;
}.

Definition LogLine : Type := LogLevel * string.

(** The argument of [createApiRoute]. *)
Record ApiConfig := {
  api_type : string;
  requiredParams : list ParamSpec;
  optionalParams : list ParamSpec;
  validateParams : option (JSValue -> M (list LogLine) (option Rejection));
}.

Inductive Method := GET | POST | PUT | DELETE.

(** One registration on the router: verb, path, whether [express.json()]
    is among the middleware, and the route's configuration. *)
Record Route := {
  method : Method;
  path : string;
  json_body : bool;
  config : ApiConfig;
}.

Section Router.
(** [validateScript] from [./utility], the script denylist predicate. *)
Variable validateScript : JSValue -> bool.

Definition log_warn (message : string) : M (list LogLine) unit :=
  modify (fun t => (t ++ [(WARN, message)])%list).

(** Lines 256-267: [validateParams] of [POST /entity/create]. *)
Definition create_validateParams (params : JSValue) : M (list LogLine) (option Rejection) :=
  let! entityType := get_prop params "entityType" in
  if is_string entityType "Macro" then
    let! data := get_prop params "data" in
    let! command := get_prop data "command" in
    if negb (validateScript command) then
      let! clientId := get_prop params "clientId" in
      log_warn ("Request for " ++ to_string clientId ++ " contains forbidden patterns in script") ;;
      ret (Some {| error := "Script contains forbidden patterns";
                   suggestion := "Ensure the script does not access localStorage, sessionStorage, or eval()" |})
    else ret None
  else ret None.

Definition p (n : string) (f : From) (t : ParamType) : ParamSpec :=
  {| name := n; from := f; type := t |}.

Definition route_get : Route :=
  {| method := GET; path := "/get"; json_body := false;
     config := {|
       api_type := "entity";
       requiredParams := [p "clientId" (from_one query) t_string];
       optionalParams := [p "uuid" (from_one query) t_string;
                          p "selected" (from_one query) t_boolean;
                          p "actor" (from_one query) t_boolean];
       validateParams := None |} |}.

Definition route_create : Route :=
  {| method := POST; path := "/create"; json_body := true;
     config := {|
       api_type := "create";
       requiredParams := [p "clientId" (from_one query) t_string;
                          p "entityType" (from_one body) t_string;
                          p "data" (from_one body) t_object];
       optionalParams := [p "folder" (from_one body) t_string];
       validateParams := Some create_validateParams |} |}.

Definition route_update : Route :=
  {| method := PUT; path := "/update"; json_body := true;
     config := {|
       api_type := "update";
       requiredParams := [p "clientId" (from_one query) t_string;
                          p "data" (from_one body) t_object];
       optionalParams := [p "uuid" (from_one query) t_string;
                          p "selected" (from_one query) t_boolean;
                          p "actor" (from_one query) t_boolean];
       validateParams := None |} |}.

Definition route_delete : Route :=
  {| method := DELETE; path := "/delete"; json_body := false;
     config := {|
       api_type := "delete";
       requiredParams := [p "clientId" (from_one query) t_string];
       optionalParams := [p "uuid" (from_one query) t_string;
                          p "selected" (from_one query) t_boolean];
       validateParams := None |} |}.

Definition route_give : Route :=
  {| method := POST; path := "/give"; json_body := true;
     config := {|
       api_type := "give";
       requiredParams := [p "clientId" (from_array [body; query]) t_string];
       optionalParams := [p "fromUuid" (from_one body) t_string;
                          p "toUuid" (from_one body) t_string;
                          p "selected" (from_one body) t_boolean;
                          p "itemUuid" (from_one body) t_string;
                          p "itemName" (from_one body) t_string;
                          p "quantity" (from_one body) t_number];
       validateParams := None |} |}.

Definition route_remove : Route :=
  {| method := POST; path := "/remove"; json_body := true;
     config := {|
       api_type := "remove";
       requiredParams := [p "clientId" (from_array [body; query]) t_string];
       optionalParams := [p "actorUuid" (from_one body) t_string;
                          p "selected" (from_one body) t_boolean;
                          p "itemUuid" (from_one body) t_string;
                          p "itemName" (from_one body) t_string;
                          p "quantity" (from_one body) t_number];
       validateParams := None |} |}.

Definition route_decrease : Route :=
  {| method := POST; path := "/decrease"; json_body := true;
     config := {|
       api_type := "decrease";
       requiredParams := [p "clientId" (from_one query) t_string;
                          p "attribute" (from_one body) t_string;
                          p "amount" (from_one body) t_number];
       optionalParams := [p "uuid" (from_one query) t_string;
                          p "selected" (from_one query) t_boolean];
       validateParams := None |} |}.

Definition route_increase : Route :=
  {| method := POST; path := "/increase"; json_body := true;
     config := {|
       api_type := "increase";
       requiredParams := [p "clientId" (from_one query) t_string;
                          p "attribute" (from_one body) t_string;
                          p "amount" (from_one body) t_number];
       optionalParams := [p "uuid" (from_one query) t_string;
                          p "selected" (from_one query) t_boolean];
       validateParams := None |} |}.

Definition route_kill : Route :=
  {| method := POST; path := "/kill"; json_body := true;
     config := {|
       api_type := "kill";
       requiredParams := [p "clientId" (from_one query) t_string];
       optionalParams := [p "uuid" (from_one query) t_string;
                          p "selected" (from_one query) t_boolean];
       validateParams := None |} |}.

(** The router, in the order of registration. *)
Definition entityRouter : list Route :=
  [route_get; route_create; route_update; route_delete; route_give;
   route_remove; route_decrease; route_increase; route_kill].

End Router.

(** The declaration of a parameter in a route, required ones first. *)
Definition find_param (n : string) (c : ApiConfig) : option ParamSpec :=
  List.find (fun s => bool_decide (name s = n)) (requiredParams c ++ optionalParams c).

Definition is_required (n : string) (c : ApiConfig) : bool :=
  existsb (fun s => bool_decide (name s = n)) (requiredParams c).

(** The sources from which a route accepts the parameter [n]. *)
Definition accepted_from (n : string) (r : Route) : option (list Source) :=
  (fun s => sources (from s)) <$> find_param n (config r).

End EntityRoutes.


(** ** The dispatcher *)

Module Dispatcher.
Import Eff EntityRoutes.

(** An HTTP request after the middleware: decoded query parameters and
    the decoded JSON body's fields. *)
Record Request := {
  req_query : list (string * JSValue);
  req_body : list (string * JSValue);
}.

Record Response := {
  status : Z;
  payload : JSValue;
}.

(** The frame sent to a world. *)
Record Envelope := {
  env_type : string;
  env_requestId : string;
  env_clientId : string;
  env_payload : list (string * JSValue);
}.

(** What the waiter of a dispatch yields. *)
Inductive Outcome :=
| Reply (fields : list (string * JSValue))
| TimedOut
| SessionLost
| Cancelled.

(** What lies behind the dispatcher for one request: whether a Session
    is registered for an id, the request id minted, whether the send
    succeeds, and the outcome of the wait. *)
Record Upstream := {
  online : string -> bool;
  fresh_requestId : string;
  send_ok : bool;
  outcome : Outcome;
}.

Definition typeof_matches (t : ParamType) (v : JSValue) : bool :=
  match t, v with
  | t_string, JSString _ => true
  | t_number, JSNumber _ => true
  | t_boolean, JSBool _ => true
  | t_object, JSObject _ => true
  | _, _ => false
  end.

Definition from_source (s : Source) (req : Request) (n : string) : option JSValue :=
  match s with
  | query => lookup_field n (req_query req)
  | body => lookup_field n (req_body req)
  end.

(** Modelled from the spec: parameter extraction of [createApiRoute]
    ([../route-helpers], not among the sources), section 4.5: a
    parameter is looked up in its declared sources, in their order. *)
Fixpoint extract (ss : list Source) (req : Request) (n : string) : option JSValue :=
  match ss with
  | [] => None
  | s :: rest =>
      match from_source s req n with
      | Some v => Some v
      | None => extract rest req n
      end
  end.

Definition error_body (e : string) : JSValue := JSObject [("error", JSString e)].

(** Modelled from the spec: step 1 of section 4.5 for the required
    parameters, "Missing required -> HTTP 400 MissingParameter", with
    strict types. *)
Fixpoint extract_required (ps : list ParamSpec) (req : Request)
    : Response + list (string * JSValue) :=
  match ps with
  | [] => inr []
  | s :: rest =>
      match extract (sources (from s)) req (name s) with
      | None => inl {| status := 400; payload := error_body "MissingParameter" |}
      | Some v =>
          if typeof_matches (type s) v then
            match extract_required rest req with
            | inl r => inl r
            | inr vs => inr ((name s, v) :: vs)
            end
          else inl {| status := 400; payload := error_body "TypeMismatch" |}
      end
  end.

(** Modelled from the spec: step 1 of section 4.5 for the optional
    parameters, "absent optionals are omitted". *)
Fixpoint extract_optional (ps : list ParamSpec) (req : Request) : list (string * JSValue) :=
  match ps with
  | [] => []
  | s :: rest =>
      match extract (sources (from s)) req (name s) with
      | Some v =>
          if typeof_matches (type s) v
          then (name s, v) :: extract_optional rest req
          else extract_optional rest req
      | None => extract_optional rest req
      end
  end.

Definition rejection_body (r : Rejection) : JSValue :=
  JSObject [("error", JSString (error r)); ("suggestion", JSString (suggestion r))].

Definition without (n : string) (fields : list (string * JSValue)) : list (string * JSValue) :=
  filter (fun kv => kv.1 ≠ n) fields.

(** Modelled from the spec: steps 3 to 6 of section 4.5, from the
    lookup of the target Session to the translation of the outcome. *)
Definition forward (c : ApiConfig) (params : list (string * JSValue)) (up : Upstream)
    : option Response * list Envelope :=
  let clientId := to_string (default JSUndefined (lookup_field "clientId" params)) in
  if online up clientId then
    let envelope := {| env_type := api_type c; env_requestId := fresh_requestId up;
                       env_clientId := clientId;
                       env_payload := without "clientId" params |} in
    if send_ok up then
      (match outcome up with
       | Reply fields =>
           match lookup_field "error" fields with
           | Some _ => Some {| status := 422; payload := JSObject fields |}
           | None => Some {| status := 200; payload := JSObject fields |}
           end
       | TimedOut => Some {| status := 504; payload := error_body "UpstreamTimeout" |}
       | SessionLost => Some {| status := 502; payload := error_body "WorldDisconnected" |}
       | Cancelled => None
       end, [envelope])
    else (Some {| status := 502; payload := error_body "UpstreamSendFailed" |}, [])
  else (Some {| status := 404; payload := error_body "WorldOffline" |}, []).

(** Modelled from the spec: the handler [createApiRoute] builds
    ([../route-helpers], not among the sources), section 4.5: extract,
    then "invoke validateParams; if it rejects, return HTTP 400 with its
    payload", then forward. It yields the response written, if any, and
    the envelopes sent. *)
Definition createApiRoute (c : ApiConfig) (req : Request) (up : Upstream)
    : option Response * list Envelope :=
  match extract_required (requiredParams c) req with
  | inl r => (Some r, [])
  | inr required =>
      let params := (required ++ extract_optional (optionalParams c) req)%list in
      match validateParams c with
      | Some validate =>
          match validate (JSObject params) [] with
          | (Normal (Some rejection), _) =>
              (Some {| status := 400; payload := rejection_body rejection |}, [])
          | (Normal None, _) => forward c params up
          | (_, _) => (Some {| status := 500; payload := error_body "InternalError" |}, [])
          end
      | None => forward c params up
      end
  end.

End Dispatcher.

(** *** Statements about runs *)

Module DailyResetTerms.
Import Eff DailyReset.

(** The calls of the main path succeed: the lock attempt, the bulk
    update, the count, the sample and the two commands that record the
    completion stamp. *)
Definition main_calls_succeed (env : Env) (faults : Faults) : Prop :=
  faults (RedisSetNX lockKey (lockValue env) (lockTTL * 1000)) = None
  ∧ faults UserUpdate = None
  ∧ faults UserCount = None
  ∧ faults UserFindOne = None
  ∧ faults (RedisSet "last_daily_reset" (toISOString (now env))) = None
  ∧ faults (RedisExpire "last_daily_reset" (86400 * 2)) = None.

(** The line the [finally] block logs after the release script. *)
Definition release_line (thrown : option Exn) : Event :=
  match thrown with
  | None => ELog INFO "Released daily reset lock"
  | Some e => ELog WARN ("Error releasing daily lock: " ++ exn_msg e)
  end.

(** The release call of a run, as it appears in the trace. *)
Definition release_call (env : Env) (thrown : option Exn) : Event :=
  ECall (RedisEval [lockKey] [lockValue env]) thrown.

(** The lock attempt of a run, as it appears in the trace. *)
Definition lock_call (env : Env) (thrown : option Exn) : Event :=
  ECall (RedisSetNX lockKey (lockValue env) 300000) thrown.

(** No call in [t] threw. *)
Definition calm (t : list Event) : Prop := ∀ op e, ECall op (Some e) ∉ t.

(** Every error thrown by a call in [t] is printed by an [error] or
    [warn] line of [t]. *)
Definition well_logged (t : list Event) : Prop :=
  ∀ op e, ECall op (Some e) ∈ t →
    ∃ lvl pre, (lvl = ERROR ∨ lvl = WARN) ∧ ELog lvl (pre ++ exn_msg e) ∈ t.

(** [m] only appends to the trace; when it throws, the error is the one
    of the last call recorded, and no other call threw. *)
Definition raises {A} (m : M World A) : Prop :=
  ∀ w, ∃ new, trace (m w).2 = (trace w ++ new)%list ∧
    match (m w).1 with
    | Throw e => ∃ pre op, new = (pre ++ [ECall op (Some e)])%list ∧ calm pre
    | _ => calm new
    end.

(** [m] never throws, and every error thrown inside it is logged. *)
Definition handled {A} (m : M World A) : Prop :=
  ∀ w, ∃ new, trace (m w).2 = (trace w ++ new)%list ∧ well_logged new ∧
    ∀ e, (m w).1 ≠ Throw e.

(** [m] takes every world to one related to it by [R]. *)
Definition preserves (R : World → World → Prop) {A} (m : M World A) : Prop :=
  ∀ w, R w (m w).2.

(** The store is left as it was. *)
Definition same_store (w w' : World) : Prop := store w' = store w.

(** The lock key is left as it was. *)
Definition same_lock (w w' : World) : Prop := store w' !! lockKey = store w !! lockKey.

End DailyResetTerms.

(** *** Sample inputs *)

Module Samples.
Import Eff DailyReset.

Definition sample_user (id : nat) (n : Z) : User :=
  {| userId := id; requestsToday := n; lastRequestDate := 0;
     has_setDataValue := true; has_requestsToday := true; has_save := true;
     is_stored_record := false |}.

(** Two users with requests counted, an empty store. *)
Definition sample_world : World :=
  {| store := ∅; users := [sample_user 1 7; sample_user 2 3]; trace := [] |}.

(** A process without a Redis client. *)
Definition env_single : Env :=
  {| FLY_ALLOC_ID := None; date_now := 1000; redis_client := false |}.

(** Two instances sharing the store; the clock of [b] reads one minute
    after the clock of [a]. *)
Definition env_a : Env :=
  {| FLY_ALLOC_ID := Some "a"; date_now := 1000; redis_client := true |}.

Definition env_b : Env :=
  {| FLY_ALLOC_ID := Some "b"; date_now := 61000; redis_client := true |}.

(** The lock as instance [a] writes it at its clock reading. *)
Definition lock_of_a : RedisEntry :=
  {| value := "a_1000"; expireAt := Some 301000%Z |}.

(** The sample world while instance [a] holds the lock. *)
Definition world_locked_by_a : World :=
  {| store := {[ "daily_reset_lock" := lock_of_a ]};
     users := [sample_user 1 7; sample_user 2 3]; trace := [] |}.

(** The shared state a later run finds, with a trace of its own. *)
Definition handed_over (w : World) : World :=
  {| store := store w; users := users w; trace := [] |}.

(** The bulk update fails; every other call works. *)
Definition bulk_update_fails : Faults :=
  fun op => match op with
            | UserUpdate => Some (Err "SequelizeDatabaseError")
            | _ => None
            end.

End Samples.

(** *** Sample connections *)

Module WsSamples.
Import Eff WsRoutes.

(** An environment in which every session is valid, every client is
    registered and nothing throws. *)
Definition welcoming (params : list (string * string)) : Conn :=
  {| url_params := Some params;
     validateHeadlessSession := fun _ _ => inr true;
     addClient := fun id token => inr (Some {| client_id := id; client_token := token |});
     ws_close_fault := fun _ => None;
     WEBSOCKET_PING_INTERVAL_MS := 20000 |}.

(** [ws://relay/?id=&token=t]: both parameters are there, [id] is
    empty. *)
Definition conn_empty_id : Conn := welcoming [("id", EmptyString); ("token", "t")].

(** [ws://relay/?id=W1&token=t] *)
Definition conn_W1 : Conn := welcoming [("id", "W1"); ("token", "t")].

(** [ws://relay/?token=t] *)
Definition conn_no_id : Conn := welcoming [("token", "t")].

(** The auth adapter turns the session down. *)
Definition conn_invalid : Conn :=
  {| url_params := Some [("id", "W1"); ("token", "t")];
     validateHeadlessSession := fun _ _ => inr false;
     addClient := fun id token => inr (Some {| client_id := id; client_token := token |});
     ws_close_fault := fun _ => None;
     WEBSOCKET_PING_INTERVAL_MS := 20000 |}.

(** The auth adapter throws. *)
Definition conn_auth_down : Conn :=
  {| url_params := Some [("id", "W1"); ("token", "t")];
     validateHeadlessSession := fun _ _ => inl (Err "AuthBackendUnavailable");
     addClient := fun id token => inr None;
     ws_close_fault := fun _ => None;
     WEBSOCKET_PING_INTERVAL_MS := 20000 |}.

End WsSamples.

(** *** Statements about the registry *)

Module RegistryTerms.
Import Registry.


(** What [remove(id, session)] leaves under [id]. *)
Definition after_remove (stored : option nat) (session : nat) : option nat :=
  match stored with
  | Some s => if decide (s = session) then None else Some s
  | None => None
  end.

End RegistryTerms.

(** *** Sample requests *)

Module EntitySamples.
Import Eff EntityRoutes Dispatcher.

(** A stand-in for the denylist predicate, for the samples only: it
    turns down the scripts that contain [eval(]. *)
Definition refuses_eval (command : JSValue) : bool :=
  match command with
  | JSString s =>
      match String.index 0 "eval(" s with
      | Some _ => false
      | None => true
      end
  | _ => true
  end.

(** [POST /entity/create?clientId=W1] with a macro whose command calls
    [eval]. *)
Definition macro_request : Request :=
  {| req_query := [("clientId", JSString "W1")];
     req_body := [("entityType", JSString "Macro");
                  ("data", JSObject [("name", JSString "m");
                                     ("command", JSString "eval('1')")])] |}.

(** [POST /entity/create?clientId=W1] with an actor. *)
Definition actor_request : Request :=
  {| req_query := [("clientId", JSString "W1")];
     req_body := [("entityType", JSString "Actor");
                  ("data", JSObject [("name", JSString "a")])] |}.

(** A request that names its world in the body only. *)
Definition body_only_request : Request :=
  {| req_query := [];
     req_body := [("clientId", JSString "W1")] |}.

(** The world [W1] is connected and answers. *)
Definition world_up : Upstream :=
  {| online := fun id => bool_decide (id = "W1");
     fresh_requestId := "r-1";
     send_ok := true;
     outcome := Reply [("data", JSObject [])] |}.

End EntitySamples.

(** *** Further statements about runs *)

Module DailyResetMoreTerms.
Import Eff DailyReset.

(** An object as the ORM hands it out: it has [setDataValue] and
    [save]. *)
Definition model_instance (u : User) : Prop :=
  has_setDataValue u = true ∧ has_save u = true.

(** How far the alternate method has got in the table when the save of
    row [k] is the first to fail: the rows before it, and row [k] itself
    when its object is the stored record, whose fields were assigned
    before the save. *)
Definition reset_reach (us : list User) (k : nat) : nat :=
  match us !! k with
  | Some u => if is_stored_record u then S k else k
  | None => k
  end.

(** The alternate method saves the object: it has [setDataValue], or it
    has a [requestsToday] property and [save]. *)
Definition persisted (u : User) : bool :=
  has_setDataValue u || (has_requestsToday u && has_save u).

(** An object with [setDataValue] also has [save]. *)
Definition saveable (u : User) : Prop :=
  has_setDataValue u = true → has_save u = true.

(** The alternate method assigns to the object: it has [setDataValue]
    or a [requestsToday] property. *)
Definition assigned (u : User) : bool :=
  has_setDataValue u || has_requestsToday u.

(** What the alternate method leaves of a row when no save fails: the
    row is reset when its object is saved, and also when its object is
    assigned to and is the stored record itself. *)
Definition fallback_row (t : Z) (u : User) : User :=
  if persisted u || (assigned u && is_stored_record u) then reset_row t u else u.

(** A row is as it was, or has been reset at [t]. *)
Definition row_kept (t : Z) (u u' : User) : Prop :=
  u' = u ∨ u' = reset_row t u.

(** Row by row, the table is as it was or reset at [t]. *)
Definition rows_kept (t : Z) (w w' : World) : Prop :=
  Forall2 (row_kept t) (users w) (users w').

(** The table is as it was, or every row has been reset at [t]. *)
Definition rows_either (t : Z) (w w' : World) : Prop :=
  users w' = users w ∨ users w' = map (reset_row t) (users w).

(** Every key of the store but the two the job owns is as it was. *)
Definition other_keys_kept (w w' : World) : Prop :=
  ∀ k, k ≠ lockKey → k ≠ "last_daily_reset" → store w' !! k = store w !! k.

(** [m] only appends events that satisfy [P]. *)
Definition appends (P : Event → Prop) {A} (m : M World A) : Prop :=
  ∀ w, ∃ new, trace (m w).2 = (trace w ++ new)%list ∧ Forall P new.

(** An event that is not a Redis command. *)
Definition no_redis (e : Event) : Prop := is_redis_call e = false.

(** The world a run leaves. *)
Definition after (env : Env) (faults : Faults) (w : World) : World :=
  (resetDailyRequests env faults w).2.

(** The events a run adds to an empty trace. *)
Definition events_of (env : Env) (faults : Faults) (w : World) : list Event :=
  trace (after env faults {| store := store w; users := users w; trace := [] |}).

End DailyResetMoreTerms.

(** *** Sequences of log calls *)

Module LoggerMoreTerms.
Import Logger.

(** The calls [log.<level>(message)] of a list, made in order. *)
Definition log_all (LOG_LEVEL : option PinoLevel) (calls : list (LogLevel * string))
    (st : LogState) : LogState :=
  foldl (fun st c => log LOG_LEVEL c.1 c.2 st) st calls.

(** How many calls of a list are made at level [l]. *)
Definition calls_at (l : LogLevel) (calls : list (LogLevel * string)) : nat :=
  length (filter (fun c => c.1 = l) calls).

(** The calls of a list whose level is enabled. *)
Definition written (LOG_LEVEL : option PinoLevel) (calls : list (LogLevel * string))
    : list (LogLevel * string) :=
  filter (fun c => enabled LOG_LEVEL c.1 = true) calls.

End LoggerMoreTerms.

(** ** The life of a connection after its setup
    ([src/routes/websocket.ts], lines 162-187) *)

Module WsLifecycle.
Import WsRoutes.

(** [ws.readyState] *)
Inductive ReadyState := CONNECTING | OPEN | CLOSING | CLOSED.

(** What the ping timer and the listeners of a connection do. *)
Inductive Effect :=
| Ping (payload : string)
| Logged (level : LogLevel) (message : string)
| IntervalCleared
| ClientRemoved (id : string)
| LastSeenUpdated.

(** A connection after its setup: whether its ping timer is armed, the
    state of the socket, and what has been done so far. *)
Record Live := {
  armed : bool;
  readyState : ReadyState;
  effects : list Effect;
}.

(** What the runtime delivers: a tick of the ping timer, a change of the
    socket's state, or an event of the socket with the error it
    carries, if any. *)
Inductive Signal :=
| Tick
| ReadyChange (rs : ReadyState)
| Fired (event : string) (error : string).

(** The listeners the setup installed for an event, in order. *)
Fixpoint listeners (event : string) (t : list Event) : list (list Action) :=
  match t with
  | [] => []
  | EOn ev l :: rest =>
      if decide (ev = event) then l :: listeners event rest else listeners event rest
  | _ :: rest => listeners event rest
  end.

(** Whether the setup reached [setInterval]. *)
Definition timer_set (t : list Event) : bool :=
  existsb (fun e => match e with ESetInterval _ => true | _ => false end) t.

(** The [id] the closures of the setup hold. *)
Fixpoint closure_id (t : list Event) : string :=
  match t with
  | [] => EmptyString
  | EAddClient id _ :: _ => id
  | _ :: rest => closure_id rest
  end.

Definition did (e : Effect) (st : Live) : Live :=
  {| armed := armed st; readyState := readyState st; effects := (effects st ++ [e])%list |}.

(** One statement of a listener. *)
Definition run_action (error : string) (st : Live) (a : Action) : Live :=
  match a with
  | ClearInterval =>
      {| armed := false; readyState := readyState st;
         effects := (effects st ++ [IntervalCleared])%list |}
  | RemoveClient id => did (ClientRemoved id) st
  | UpdateLastSeen => did LastSeenUpdated st
  | LogError id =>
      did (Logged ERROR ("WebSocket error for client " ++ id ++ ": " ++ error)) st
  end.

(** Lines 163-168: the callback of the ping timer. *)
Definition ping_tick (id : string) (st : Live) : Live :=
  match readyState st with
  | OPEN =>
      did (Logged DEBUG ("Sent WebSocket protocol ping to " ++ id))
        (did (Ping "keepalive") st)
  | _ => st
  end.

(** The connection with setup trace [t] takes one signal. A cleared
    timer does not tick. *)
Definition deliver (t : list Event) (st : Live) (s : Signal) : Live :=
  match s with
  | Tick => if armed st then ping_tick (closure_id t) st else st
  | ReadyChange rs => {| armed := armed st; readyState := rs; effects := effects st |}
  | Fired event error => foldl (foldl (run_action error)) st (listeners event t)
  end.

(** The connection as its setup leaves it: the socket is open. *)
Definition start (t : list Event) : Live :=
  {| armed := timer_set t; readyState := OPEN; effects := [] |}.

(** The connection [c] after its setup and the signals [sigs]. *)
Definition lifetime (c : Conn) (sigs : list Signal) : Live :=
  foldl (deliver (connection c).2) (start (connection c).2) sigs.

Definition is_ping (e : Effect) : bool :=
  match e with
  | Ping _ => true
  | _ => false
  end.

(** The pings sent so far. *)
Definition pings (st : Live) : nat :=
  length (filter (fun e => is_ping e = true) (effects st)).

(** The ids handed to [ClientManager.removeClient] so far. *)
Definition removals (st : Live) : list string :=
  omap (fun e => match e with ClientRemoved id => Some id | _ => None end) (effects st).

(** A [close] or [error] event of the socket. *)
Definition closing (s : Signal) : bool :=
  match s with
  | Fired event _ => bool_decide (event = "close" ∨ event = "error")
  | _ => false
  end.

End WsLifecycle.

(** *** Shapes of the route tables *)

Module EntityRoutesMoreTerms.
Import EntityRoutes.

Definition all_params (r : Route) : list ParamSpec :=
  (requiredParams (config r) ++ optionalParams (config r))%list.

(** The route declares a parameter that may come from the body. *)
Definition uses_body (r : Route) : bool :=
  existsb (fun s => existsb (fun src => match src with body => true | query => false end)
                      (sources (from s)))
          (all_params r).

End EntityRoutesMoreTerms.

(** *** The close path of a connection, seen from the registry *)

Module ClosePath.
Import WsRoutes WsLifecycle Registry.




End ClosePath.

(** *** Two instances without an allocation id *)

Module LocalSamples.
Import Eff DailyReset Samples.

(** A process started without [FLY_ALLOC_ID], running the job at the
    instant 1000 with a Redis client. *)
Definition env_local : Env :=
  {| FLY_ALLOC_ID := None; date_now := 1000; redis_client := true |}.

(** The shared state while a first such process is at work: it has
    taken the lock and not yet released it. *)
Definition world_held_by_local : World :=
  handed_over (acquire_lock env_local no_faults sample_world).2.

End LocalSamples.


(** * Theorems *)

Open Scope list_scope.

(** ** The telemetry module *)

Module LoggerFacts.
Import Logger.

Lemma count_inc (l l' : LogLevel) (st : LogState) :
  count (inc l st) l' = if decide (l' = l) then S (count st l') else count st l'.
Proof.
  unfold count, inc; simpl.
  destruct (decide (l' = l)) as [->|Hne].
  - by rewrite lookup_insert_eq.
  - by rewrite lookup_insert_ne.
Qed.

Lemma counts_logger_write (lv : option PinoLevel) (l : LogLevel) (m : string) (st : LogState) :
  counts (logger_write lv l m st) = counts st.
Proof. unfold logger_write. by destruct (enabled lv l). Qed.

Lemma output_logger_write (lv : option PinoLevel) (l : LogLevel) (m : string) (st : LogState) :
  output (logger_write lv l m st)
  = if enabled lv l then output st ++ [(l, m)] else output st.
Proof. unfold logger_write. by destruct (enabled lv l). Qed.

Lemma log_unfold (lv : option PinoLevel) (l : LogLevel) (m : string) (st : LogState) :
  log lv l m st = logger_write lv l m (inc l st).
Proof. by destruct l. Qed.

(** C7, as the code has it: the registry of the telemetry module holds
    exactly one metric of its own, the counter named [pino_logs_total]
    with the single label [level], next to the default process metrics
    and under the default label [app]. *)
Theorem register_exposes_pino_logs_total :
  metrics register = [logCounter]
  ∧ name logCounter = "pino_logs_total"
  ∧ labelNames logCounter = ["level"]
  ∧ defaultMetrics register = true
  ∧ defaultLabels register = [("app", "foundryvtt-rest-api-relay")].
Proof. repeat split. Qed.

(** C7, as the specification words it, fails: no metric of the registry
    is named [logs_total]. *)
Lemma no_metric_named_logs_total :
  ¬ ∃ c, c ∈ metrics register ∧ name c = "logs_total".
Proof.
  intros (c & Hin & Hname).
  change (metrics register) with [logCounter] in Hin.
  apply list_elem_of_singleton in Hin. subst c. discriminate Hname.
Qed.

(** C10: whatever [LOG_LEVEL] is, a call of any of the four methods adds
    exactly one to the series of its own level and leaves the other
    series alone; the line itself is written only when the level is
    enabled. *)
Theorem log_counts_every_call (LOG_LEVEL : option PinoLevel) (l : LogLevel)
    (message : string) (st : LogState) :
  (∀ l', count (log LOG_LEVEL l message st) l'
         = if decide (l' = l) then S (count st l') else count st l')
  ∧ counts (log LOG_LEVEL l message st) = <[l := S (count st l)]> (counts st)
  ∧ output (log LOG_LEVEL l message st)
    = if enabled LOG_LEVEL l then output st ++ [(l, message)] else output st.
Proof.
  rewrite log_unfold. split; [|split].
  - intros l'. unfold count at 1. rewrite counts_logger_write.
    apply (count_inc l l' st).
  - by rewrite counts_logger_write.
  - by rewrite output_logger_write.
Qed.

(** With [LOG_LEVEL=error] an [info] call writes nothing and is still
    counted. *)
Example suppressed_info_is_counted :
  let st := {| counts := ∅; output := [] |} in
  output (info (Some p_error) "hello" st) = []
  ∧ count (info (Some p_error) "hello" st) INFO = 1.
Proof. split; reflexivity. Qed.

End LoggerFacts.

(** ** The daily reset job *)

Module DailyResetFacts.
Import Eff DailyReset.

(** *** How traces grow *)

Import DailyResetTerms.

Lemma calm_nil : calm [].
Proof. intros op e H. by apply not_elem_of_nil in H. Qed.

Lemma calm_app (a b : list Event) : calm a → calm b → calm (a ++ b).
Proof.
  intros Ha Hb op e H. apply elem_of_app in H as [H|H]; [by eapply Ha|by eapply Hb].
Qed.

Lemma calm_log (l : LogLevel) (msg : string) : calm [ELog l msg].
Proof. intros op e H. apply list_elem_of_singleton in H. discriminate. Qed.

Lemma calm_ok (op : Op) : calm [ECall op None].
Proof. intros op' e H. apply list_elem_of_singleton in H. discriminate. Qed.

Lemma calm_well_logged (t : list Event) : calm t → well_logged t.
Proof. intros H op e Hin. by apply H in Hin. Qed.

Lemma well_logged_app (a b : list Event) :
  well_logged a → well_logged b → well_logged (a ++ b).
Proof.
  intros Ha Hb op e H. apply elem_of_app in H as [H|H].
  - destruct (Ha _ _ H) as (lvl & pre & Hl & Hin).
    exists lvl, pre. split; [done|]. apply elem_of_app. by left.
  - destruct (Hb _ _ H) as (lvl & pre & Hl & Hin).
    exists lvl, pre. split; [done|]. apply elem_of_app. by right.
Qed.

Section Run.
Variable env : Env.
Variable faults : Faults.

Lemma raises_ret {A} (a : A) : raises (ret a : M World A).
Proof. intros w. exists []. simpl. split; [by rewrite app_nil_r|apply calm_nil]. Qed.

Lemma raises_early_return {A} : raises (early_return : M World A).
Proof. intros w. exists []. simpl. split; [by rewrite app_nil_r|apply calm_nil]. Qed.

Lemma raises_log (l : LogLevel) (msg : string) : raises (log l msg).
Proof. intros w. exists [ELog l msg]. simpl. split; [done|apply calm_log]. Qed.

Lemma raises_failed_call {A} (op : Op) (e : Exn) : raises (failed_call op e : M World A).
Proof.
  intros w. exists [ECall op (Some e)]. simpl. split; [done|].
  exists [], op. split; [done|apply calm_nil].
Qed.

Lemma raises_call {A} (op : Op) (effect : World → A * World) :
  (∀ w, trace (effect w).2 = trace w) → raises (call faults op effect).
Proof.
  intros Heff w. unfold call. destruct (faults op) as [e|].
  - apply raises_failed_call.
  - specialize (Heff w). destruct (effect w) as [a w']. simpl in *.
    exists [ECall op None]. split; [by rewrite Heff|apply calm_ok].
Qed.

Lemma raises_bind {A B} (m : M World A) (k : A → M World B) :
  raises m → (∀ a, raises (k a)) → raises (bind m k).
Proof.
  intros Hm Hk w. unfold bind.
  destruct (Hm w) as (n1 & Ht1 & H1).
  destruct (m w) as [[a| |e] w1]; simpl in *.
  - destruct (Hk a w1) as (n2 & Ht2 & H2).
    exists (n1 ++ n2). rewrite Ht2, Ht1, <-(assoc_L (++)). split; [done|].
    destruct (k a w1) as [[b| |e] w2]; simpl in *.
    + by apply calm_app.
    + by apply calm_app.
    + destruct H2 as (pre & op & -> & Hpre).
      exists (n1 ++ pre), op. rewrite <-(assoc_L (++)). split; [done|by apply calm_app].
  - by exists n1.
  - by exists n1.
Qed.

Lemma raises_when (c : bool) (m : M World unit) : raises m → raises (when c m).
Proof. intros Hm. destruct c; [done|apply raises_ret]. Qed.

Lemma raises_user_save (i : nat) (u : User) : raises (user_save faults i u).
Proof.
  unfold user_save. destruct (has_save u); [by apply raises_call|apply raises_failed_call].
Qed.

Lemma raises_assign (i : nat) (u : User) : raises (assign i u).
Proof.
  unfold assign. destruct (is_stored_record u); [|apply raises_ret].
  intros w. exists []. simpl. split; [by rewrite app_nil_r|apply calm_nil].
Qed.

Lemma raises_update_each (us : list User) (i n : nat) :
  raises (update_each env faults us i n).
Proof.
  revert i n. induction us as [|u rest IH]; intros i n; simpl.
  - apply raises_ret.
  - destruct (has_setDataValue u); [|destruct (has_requestsToday u)]; try apply IH.
    + apply raises_bind; [apply raises_assign|intros _].
      apply raises_bind; [apply raises_user_save|intros _; apply IH].
    + apply raises_bind; [apply raises_assign|intros _].
      destruct (has_save u); [|apply IH].
      apply raises_bind; [apply raises_user_save|intros _; apply IH].
Qed.

Lemma raises_acquire_lock : raises (acquire_lock env faults).
Proof.
  unfold acquire_lock. destruct (redis_client env); [|apply raises_log].
  apply raises_bind.
  - apply raises_call. intros w. by destruct (set_nx_px _ _ _ _ _).
  - intros [r|].
    + apply raises_log.
    + apply raises_bind; [apply raises_log|intros _; apply raises_early_return].
Qed.

Lemma raises_bulk_reset : raises (bulk_reset env faults).
Proof.
  unfold bulk_reset.
  apply raises_bind; [apply raises_log|intros _].
  apply raises_bind; [by apply raises_call|intros updatedCount].
  apply raises_bind; [by apply raises_call|intros totalUsers].
  apply raises_bind; [apply raises_log|intros _].
  apply raises_bind; [by apply raises_call|intros sampleUser].
  apply raises_bind.
  - destruct sampleUser as [u|]; [|apply raises_ret].
    apply raises_bind; [apply raises_log|intros _].
    apply raises_when, raises_log.
  - intros _. apply raises_when.
    apply raises_bind; [by apply raises_call|intros _]. by apply raises_call.
Qed.

Lemma raises_try_block : raises (try_block env faults).
Proof.
  apply raises_bind; [apply raises_acquire_lock|intros _; apply raises_bulk_reset].
Qed.

(** A [try] whose handler prints the error it receives and is itself
    handled. *)
Lemma handled_try_catch (body : M World unit) (handler : Exn → M World unit) :
  raises body →
  (∀ e w, ∃ new, trace (handler e w).2 = trace w ++ new
     ∧ (∃ lvl pre, (lvl = ERROR ∨ lvl = WARN) ∧ ELog lvl (pre +:+ exn_msg e) ∈ new)
     ∧ well_logged new ∧ ∀ e', (handler e w).1 ≠ Throw e') →
  handled (try_catch body handler).
Proof.
  intros Hb Hh w. unfold try_catch.
  destruct (Hb w) as (n1 & Ht1 & H1).
  destruct (body w) as [[a| |e] w1]; simpl in *.
  - exists n1. split; [done|]. split; [by apply calm_well_logged|done].
  - exists n1. split; [done|]. split; [by apply calm_well_logged|done].
  - destruct H1 as (pre & op & -> & Hpre).
    destruct (Hh e w1) as (n2 & Ht2 & (lvl & p & Hl & Hin) & Hwl & Hnt).
    exists ((pre ++ [ECall op (Some e)]) ++ n2).
    rewrite Ht2, Ht1, <-!(assoc_L (++)). split; [done|]. split; [|done].
    apply well_logged_app; [by apply calm_well_logged|].
    intros op' e' Hin'. apply elem_of_app in Hin' as [Hin'|Hin'].
    + apply list_elem_of_singleton in Hin'. injection Hin' as -> ->.
      exists lvl, p. split; [done|]. apply elem_of_app. by right.
    + destruct (Hwl _ _ Hin') as (lvl' & p' & Hl' & Hin'').
      exists lvl', p'. split; [done|]. apply elem_of_app. by right.
Qed.

Lemma handled_recovery :
  handled
    (try_catch
       (log INFO "Attempting alternate daily reset method using findAll + individual updates" ;;
        let! all := User_findAll faults in
        let! successCount := update_each env faults all 0 0 in
        log INFO ("Daily recovery method successful - reset " +:+ pretty successCount
                  +:+ " users individually"))
       (fun recoveryError =>
          log ERROR ("Daily recovery attempt also failed: " +:+ exn_msg recoveryError))).
Proof.
  apply handled_try_catch.
  - apply raises_bind; [apply raises_log|intros _].
    apply raises_bind; [by apply raises_call|intros all].
    apply raises_bind; [apply raises_update_each|intros n; apply raises_log].
  - intros e w. eexists. simpl. split; [done|]. split; [|split; [|done]].
    + exists ERROR, "Daily recovery attempt also failed: ". split; [by left|].
      by apply list_elem_of_singleton.
    + apply calm_well_logged, calm_log.
Qed.

Lemma handled_guarded : handled (guarded env faults).
Proof.
  apply handled_try_catch; [apply raises_try_block|].
  intros e w. unfold catch_block, bind at 1. simpl.
  destruct (handled_recovery (add_event (ELog ERROR ("Error resetting daily request counts: " +:+ exn_msg e)) w))
    as (n2 & Ht2 & Hwl & Hnt).
  exists ([ELog ERROR ("Error resetting daily request counts: " +:+ exn_msg e)] ++ n2).
  simpl in Ht2. rewrite Ht2, <-(assoc_L (++)). split; [done|]. split; [|split; [|done]].
  - exists ERROR, "Error resetting daily request counts: ". split; [by left|].
    apply elem_of_app. left. by apply list_elem_of_singleton.
  - apply well_logged_app; [apply calm_well_logged, calm_log|done].
Qed.

Lemma handled_finally_block : handled (finally_block env faults).
Proof.
  unfold finally_block. destruct (redis_client env); simpl.
  - apply handled_try_catch.
    + apply raises_bind; [|intros _; apply raises_log].
      apply raises_call. intros w. by destruct (release_script _ _ _ _).
    + intros e w. eexists. simpl. split; [done|]. split; [|split; [|done]].
      * exists WARN, "Error releasing daily lock: ". split; [by right|].
        by apply list_elem_of_singleton.
      * apply calm_well_logged, calm_log.
  - intros w. exists []. simpl. split; [by rewrite app_nil_r|].
    split; [apply calm_well_logged, calm_nil|done].
Qed.

Lemma finally_block_normal (w : World) :
  ∃ w', finally_block env faults w = (Normal tt, w').
Proof.
  unfold finally_block, when. destruct (redis_client env); [|by eexists].
  unfold try_catch, bind, redis_eval_release, call.
  destruct (faults _); simpl; [by eexists|].
  destruct (release_script _ _ _ _). simpl. by eexists.
Qed.

End Run.


(** *** What the blocks of the job do *)

Section Blocks.
Import DailyResetTerms.
Variable env : Env.
Variable faults : Faults.

Lemma live_insert_ne (t : Z) (s : gmap string RedisEntry) (k k' : string) (e : RedisEntry) :
  k ≠ k' → live t (<[k := e]> s) k' = live t s k'.
Proof. intros Hne. unfold live. by rewrite lookup_insert_ne. Qed.

Lemma live_insert_eq (t : Z) (s : gmap string RedisEntry) (k : string) (e : RedisEntry) :
  live t (<[k := e]> s) k
  = match expireAt e with
    | Some t' => if bool_decide (t' ≤ t)%Z then None else Some e
    | None => Some e
    end.
Proof. unfold live. by rewrite lookup_insert_eq. Qed.

Lemma live_lookup (t : Z) (s : gmap string RedisEntry) (k : string) (e : RedisEntry) :
  live t s k = Some e → s !! k = Some e.
Proof.
  unfold live. destruct (s !! k) as [e'|]; [|done].
  destruct (expireAt e') as [t'|]; [|done]. by case_bool_decide.
Qed.

(** The release script changes nothing but the lock key, and deletes it
    only when it holds the caller's value. *)
Lemma release_script_spec (t : Z) (key arg : string) (s : gmap string RedisEntry) :
  (release_script t key arg s).2 = s
  ∨ ((release_script t key arg s).2 = delete key s
     ∧ ∃ e, s !! key = Some e ∧ value e = arg).
Proof.
  unfold release_script. destruct (live t s key) as [e|] eqn:Hl; [|by left].
  destruct (decide (value e = arg)) as [Heq|Hne]; [|by left].
  right. split; [done|]. exists e. split; [by eapply live_lookup|done].
Qed.

Lemma release_script_other (t : Z) (key arg : string) (s : gmap string RedisEntry) (e : RedisEntry) :
  s !! key = Some e → value e ≠ arg → (release_script t key arg s).2 = s.
Proof.
  intros Hs Hne. destruct (release_script_spec t key arg s) as [H|(_ & e' & He' & Hv)]; [done|].
  rewrite Hs in He'. injection He' as <-. done.
Qed.

(** The [finally] block: it finishes normally, leaves the rows alone
    and, when there is a client, issues the release script and logs one
    line. *)
Lemma finally_block_spec (w : World) :
  ∃ w', finally_block env faults w = (Normal tt, w')
    ∧ users w' = users w
    ∧ if redis_client env
      then ∃ thrown, trace w' = trace w ++ [release_call env thrown; release_line thrown]
             ∧ (thrown = faults (RedisEval [lockKey] [lockValue env]))
             ∧ store w' = match thrown with
                          | None => (release_script (now env) lockKey (lockValue env) (store w)).2
                          | Some _ => store w
                          end
      else trace w' = trace w ∧ store w' = store w.
Proof.
  unfold finally_block, when. destruct (redis_client env).
  - unfold try_catch, bind, redis_eval_release, call, release_call.
    destruct (faults (RedisEval _ _)) as [e|]; simpl.
    + eexists. split; [done|]. split; [done|]. exists (Some e). simpl.
      by rewrite <-(assoc_L (++)).
    + destruct (release_script _ _ _ _) as [r s]. simpl.
      eexists. split; [done|]. split; [done|]. exists None. simpl.
      by rewrite <-(assoc_L (++)).
  - exists w. done.
Qed.

Lemma resetDailyRequests_state (w : World) :
  (resetDailyRequests env faults w).2
  = (finally_block env faults (guarded env faults w).2).2.
Proof.
  unfold resetDailyRequests, run_async, try_finally.
  destruct (guarded env faults w) as [c w1]. simpl.
  destruct (finally_block_spec w1) as (w2 & -> & _). by destruct c.
Qed.

(** The lock attempt when the lock is held. *)
Lemma acquire_lock_held (w : World) (e : RedisEntry) :
  redis_client env = true →
  live (now env) (store w) lockKey = Some e →
  faults (RedisSetNX lockKey (lockValue env) (lockTTL * 1000)) = None →
  ∃ w', acquire_lock env faults w = (Return, w')
    ∧ store w' = store w ∧ users w' = users w
    ∧ trace w' = trace w ++ [lock_call env None;
         ELog INFO "Daily reset already running on another instance - skipping"].
Proof.
  intros Hc Hl Hf. unfold acquire_lock, bind, redis_set_nx, call, set_nx_px.
  rewrite Hc, Hf, Hl. simpl. eexists. split; [done|]. simpl.
  by rewrite <-(assoc_L (++)).
Qed.

(** The lock attempt when the lock is free. *)
Lemma acquire_lock_free (w : World) :
  redis_client env = true →
  live (now env) (store w) lockKey = None →
  faults (RedisSetNX lockKey (lockValue env) (lockTTL * 1000)) = None →
  ∃ w', acquire_lock env faults w = (Normal tt, w')
    ∧ store w' = <[lockKey := {| value := lockValue env;
                                 expireAt := Some (now env + 300000)%Z |}]> (store w)
    ∧ users w' = users w
    ∧ trace w' = trace w ++ [lock_call env None;
         ELog INFO ("Acquired daily reset lock on instance " +:+ instance_name env)].
Proof.
  intros Hc Hl Hf. unfold acquire_lock, bind, redis_set_nx, call, set_nx_px.
  rewrite Hc, Hf, Hl. simpl. eexists. split; [done|]. simpl.
  by rewrite <-(assoc_L (++)).
Qed.

(** The lock attempt without a client. *)
Lemma acquire_lock_no_client (w : World) :
  redis_client env = false →
  acquire_lock env faults w
  = (Normal tt, add_event (ELog WARN "Redis not available - proceeding with reset (single instance mode)") w).
Proof. intros Hc. unfold acquire_lock. by rewrite Hc. Qed.

(** With a client, whatever happens the first event of the [try] block
    is the lock attempt. *)
Lemma try_block_starts_with_lock_call (w : World) :
  redis_client env = true →
  ∃ rest, trace (try_block env faults w).2
          = trace w ++ lock_call env (faults (RedisSetNX lockKey (lockValue env) (lockTTL * 1000))) :: rest.
Proof.
  intros Hc.
  unfold try_block, bind, acquire_lock, redis_set_nx, call at 1. rewrite Hc.
  unfold bind at 1. unfold lock_call.
  destruct (faults (RedisSetNX _ _ _)) as [e|]; simpl.
  - by exists [].
  - destruct (set_nx_px _ _ _ _ _) as [[r|] s]; simpl.
    + match goal with |- context [bulk_reset env faults ?w1] =>
        destruct (raises_bulk_reset env faults w1) as (new & Ht & _) end.
      rewrite Ht. simpl. rewrite <-!(assoc_L (++)). by eexists.
    + rewrite <-!(assoc_L (++)). by eexists.
Qed.

End Blocks.

(** *** Relations every step of a block maintains *)

Section Preserve.
Variable R : World → World → Prop.
Hypothesis R_refl : ∀ w, R w w.
Hypothesis R_trans : ∀ w1 w2 w3, R w1 w2 → R w2 w3 → R w1 w3.
Hypothesis R_event : ∀ e w, R w (add_event e w).

Lemma preserves_ret {A} (a : A) : preserves R (ret a).
Proof. intros w. apply R_refl. Qed.

Lemma preserves_early_return {A} : preserves R (early_return : M World A).
Proof. intros w. apply R_refl. Qed.

Lemma preserves_log (l : LogLevel) (msg : string) : preserves R (log l msg).
Proof. intros w. apply R_event. Qed.

Lemma preserves_bind {A B} (m : M World A) (k : A → M World B) :
  preserves R m → (∀ a, preserves R (k a)) → preserves R (bind m k).
Proof.
  intros Hm Hk w. unfold bind. specialize (Hm w).
  destruct (m w) as [[a| |e] w1]; simpl in *; [|done..].
  eapply R_trans; [exact Hm|apply Hk].
Qed.

Lemma preserves_when (c : bool) (m : M World unit) : preserves R m → preserves R (when c m).
Proof. intros Hm. destruct c; [done|apply preserves_ret]. Qed.

Lemma preserves_try_catch (body : M World unit) (handler : Exn → M World unit) :
  preserves R body → (∀ e, preserves R (handler e)) → preserves R (try_catch body handler).
Proof.
  intros Hb Hh w. unfold try_catch. specialize (Hb w).
  destruct (body w) as [[a| |e] w1]; simpl in *; [done..|].
  eapply R_trans; [exact Hb|apply Hh].
Qed.

Lemma preserves_call {A} (faults : Faults) (op : Op) (effect : World → A * World) :
  (∀ w, R w (effect w).2) → preserves R (call faults op effect).
Proof.
  intros Heff w. unfold call. destruct (faults op); simpl; [apply R_event|].
  specialize (Heff w). destruct (effect w) as [a w1]. simpl in *.
  eapply R_trans; [exact Heff|apply R_event].
Qed.

End Preserve.

Lemma same_store_refl (w : World) : same_store w w.
Proof. done. Qed.

Lemma same_store_trans (w1 w2 w3 : World) :
  same_store w1 w2 → same_store w2 w3 → same_store w1 w3.
Proof. unfold same_store. congruence. Qed.

Lemma same_store_event (e : Event) (w : World) : same_store w (add_event e w).
Proof. done. Qed.

Lemma same_lock_refl (w : World) : same_lock w w.
Proof. done. Qed.

Lemma same_lock_trans (w1 w2 w3 : World) :
  same_lock w1 w2 → same_lock w2 w3 → same_lock w1 w3.
Proof. unfold same_lock. congruence. Qed.

Lemma same_lock_event (e : Event) (w : World) : same_lock w (add_event e w).
Proof. done. Qed.

(** Walk through a block, one statement at a time. *)
Ltac preserve rfl trs evt :=
  repeat first
    [ apply (preserves_bind _ trs); [|intros ?]
    | apply (preserves_log _ evt)
    | apply (preserves_ret _ rfl)
    | apply (preserves_when _ rfl)
    | apply (preserves_try_catch _ trs); [|intros ?]
    | apply (preserves_call _ trs evt); [intros ?] ].

Section Keeps.
Variable env : Env.
Variable faults : Faults.

Lemma same_store_user_save (i : nat) (u : User) :
  preserves same_store (user_save faults i u).
Proof.
  unfold user_save. destruct (has_save u); [|intros w; apply same_store_event].
  by apply (preserves_call _ same_store_trans same_store_event).
Qed.

Lemma same_store_assign (i : nat) (u : User) : preserves same_store (assign i u).
Proof.
  unfold assign. destruct (is_stored_record u); [|apply (preserves_ret _ same_store_refl)].
  by intros w.
Qed.

Lemma same_store_update_each (us : list User) (i n : nat) :
  preserves same_store (update_each env faults us i n).
Proof.
  revert i n. induction us as [|u rest IH]; intros i n; simpl.
  - apply (preserves_ret _ same_store_refl).
  - destruct (has_setDataValue u); [|destruct (has_requestsToday u)]; try apply IH.
    all: apply (preserves_bind _ same_store_trans); [apply same_store_assign|intros _].
    2: destruct (has_save u); [|apply IH].
    all: apply (preserves_bind _ same_store_trans); [|intros _; apply IH].
    all: apply same_store_user_save.
Qed.

(** The [catch] block sends nothing to Redis. *)
Lemma same_store_catch_block (e : Exn) : preserves same_store (catch_block env faults e).
Proof.
  unfold catch_block.
  preserve same_store_refl same_store_trans same_store_event; try done.
  apply same_store_update_each.
Qed.

(** The bulk reset touches no key but the completion stamp. *)
Lemma same_lock_bulk_reset : preserves same_lock (bulk_reset env faults).
Proof.
  unfold bulk_reset.
  preserve same_lock_refl same_lock_trans same_lock_event; try done.
  - match goal with |- preserves _ (match ?x with _ => _ end) => destruct x end;
      preserve same_lock_refl same_lock_trans same_lock_event.
  - unfold same_lock, set_plain. simpl. by rewrite lookup_insert_ne.
  - unfold same_lock, expire. simpl.
    destruct (live _ _ _); [|done]. simpl. by rewrite lookup_insert_ne.
Qed.

(** While another instance holds the lock, the guarded part of the job
    sends nothing that changes the store. *)
Lemma guarded_held_store (w : World) (e : RedisEntry) :
  redis_client env = true →
  live (now env) (store w) lockKey = Some e →
  store (guarded env faults w).2 = store w.
Proof.
  intros Hc Hl. unfold guarded, try_catch, try_block, bind.
  destruct (faults (RedisSetNX lockKey (lockValue env) (lockTTL * 1000))) as [err|] eqn:Hf.
  - unfold acquire_lock, bind, redis_set_nx, call. rewrite Hc, Hf. simpl.
    exact (same_store_catch_block err (add_event _ w)).
  - destruct (acquire_lock_held env faults w e Hc Hl Hf) as (w1 & -> & Hs & _). done.
Qed.

(** Once the lock is taken, the guarded part of the job leaves it in
    place, however it ends. *)
Lemma guarded_free_lock (w : World) :
  redis_client env = true →
  live (now env) (store w) lockKey = None →
  faults (RedisSetNX lockKey (lockValue env) (lockTTL * 1000)) = None →
  store (guarded env faults w).2 !! lockKey
  = Some {| value := lockValue env; expireAt := Some (now env + 300000)%Z |}.
Proof.
  intros Hc Hl Hf. unfold guarded, try_catch, try_block, bind.
  destruct (acquire_lock_free env faults w Hc Hl Hf) as (w1 & -> & Hs & _).
  pose proof (same_lock_bulk_reset w1) as Hb.
  destruct (bulk_reset env faults w1) as [[[]| |err] w2]; simpl in *.
  - rewrite Hb, Hs. apply lookup_insert_eq.
  - rewrite Hb, Hs. apply lookup_insert_eq.
  - rewrite (same_store_catch_block err w2), Hb, Hs. apply lookup_insert_eq.
Qed.

End Keeps.

(** *** The main path *)

Section MainPath.
Import DailyResetTerms.
Variable env : Env.
Variable faults : Faults.

Lemma resetDailyRequests_resolves (w : World) :
  (resetDailyRequests env faults w).1 = Resolved.
Proof.
  unfold resetDailyRequests, run_async, try_finally.
  destruct (handled_guarded env faults w) as (n1 & _ & _ & Hnt).
  destruct (guarded env faults w) as [c w1]. simpl in *.
  destruct (finally_block_normal env faults w1) as (w2 & ->).
  destruct c as [[]| |e]; [done..|by destruct (Hnt e)].
Qed.

(** The bulk reset when none of its calls fails. *)
Lemma bulk_reset_ok (w : World) :
  faults UserUpdate = None →
  faults UserCount = None →
  faults UserFindOne = None →
  faults (RedisSet "last_daily_reset" (toISOString (now env))) = None →
  faults (RedisExpire "last_daily_reset" (86400 * 2)) = None →
  ∃ w' m1 m2 verification,
    bulk_reset env faults w = (Normal tt, w')
    ∧ users w' = map (reset_row (now env)) (users w)
    ∧ store w' = (if redis_client env
                  then <["last_daily_reset" := {| value := toISOString (now env);
                                                  expireAt := Some (now env + 172800000)%Z |}]> (store w)
                  else store w)
    ∧ trace w' = trace w
        ++ [ELog INFO m1; ECall UserUpdate None; ECall UserCount None; ELog INFO m2;
            ECall UserFindOne None]
        ++ verification
        ++ (if redis_client env
            then [ECall (RedisSet "last_daily_reset" (toISOString (now env))) None;
                  ECall (RedisExpire "last_daily_reset" (86400 * 2)) None]
            else [])
    ∧ Forall (λ e, ∃ msg, e = ELog INFO msg) verification.
Proof.
  intros H2 H3 H4 H5 H6.
  unfold bulk_reset, bind, User_update, User_count, User_findOne, redis_set,
    redis_expire, call, log, modify, when.
  simpl. rewrite H2. simpl. rewrite H3. simpl. rewrite H4. simpl.
  destruct (users w) as [|u us] eqn:Hus; simpl.
  - destruct (redis_client env); simpl.
    + rewrite H5. simpl. rewrite H6. simpl.
      do 3 eexists. exists []. split; [done|]. simpl. split; [done|].
      split; [|split; [|done]].
      * unfold expire, set_plain. rewrite live_insert_eq. simpl. by rewrite insert_insert_eq.
      * by rewrite <-!(assoc_L (++)).
    + do 3 eexists. exists []. split; [done|]. simpl. split; [done|].
      split; [done|]. split; [|done]. by rewrite <-!(assoc_L (++)).
  - destruct (redis_client env); simpl.
    + rewrite H5. simpl. rewrite H6. simpl.
      do 3 eexists. eexists [_]. split; [done|]. simpl. split; [done|].
      split; [|split].
      * unfold expire, set_plain. rewrite live_insert_eq. simpl. by rewrite insert_insert_eq.
      * by rewrite <-!(assoc_L (++)).
      * repeat constructor. by eexists.
    + do 3 eexists. eexists [_]. split; [done|]. simpl. split; [done|].
      split; [done|]. split; [by rewrite <-!(assoc_L (++))|].
      repeat constructor. by eexists.
Qed.

End MainPath.

(** *** The job as a whole *)

Import DailyResetTerms Samples.

(** C4, as the code has it: with a Redis client, the first thing a run
    does is the lock attempt ([SET NX] with a time to live of 300000
    ms); when the reply says the lock is held, the run resolves without
    any call to the model and leaves every row as it was; when the lock
    is free the attempt takes it, and it reads as held for the next
    five minutes. *)
Theorem held_lock_skips_the_reset (env : Env) (faults : Faults) (w : World) :
  redis_client env = true →
  let r := resetDailyRequests env faults w in
  (∃ thrown rest, trace r.2 = trace w ++ lock_call env thrown :: rest)
  ∧ (∀ e, live (now env) (store w) lockKey = Some e →
          faults (RedisSetNX lockKey (lockValue env) 300000) = None →
          r.1 = Resolved
          ∧ users r.2 = users w
          ∧ ∃ thrown,
              trace r.2 = trace w
                ++ [lock_call env None;
                    ELog INFO "Daily reset already running on another instance - skipping";
                    release_call env thrown; release_line thrown])
  ∧ (∀ t, live (now env) (store w) lockKey = None →
          faults (RedisSetNX lockKey (lockValue env) 300000) = None →
          (t < now env + 300000)%Z →
          live t (store (acquire_lock env faults w).2) lockKey
          = Some {| value := lockValue env; expireAt := Some (now env + 300000)%Z |}).
Proof.
  intros Hc r. split; [|split].
  - subst r. rewrite resetDailyRequests_state.
    destruct (finally_block_spec env faults (guarded env faults w).2) as (w2 & -> & _ & Hfin).
    rewrite Hc in Hfin. destruct Hfin as (thrown & Hfin & _). simpl. rewrite Hfin.
    assert (Hg : ∃ rest, trace (guarded env faults w).2
                 = trace w ++ lock_call env (faults (RedisSetNX lockKey (lockValue env) (lockTTL * 1000))) :: rest).
    { unfold guarded, try_catch.
      destruct (try_block_starts_with_lock_call env faults w Hc) as (rest & Hrest).
      destruct (try_block env faults w) as [[[]| |e] w1]; simpl in *; [by eexists..|].
      destruct (handled_guarded env faults w) as (n & Ht & _).
      unfold guarded, try_catch in Ht.
      destruct (raises_try_block env faults w) as (n1 & Ht1 & _).
      pose proof (same_store_catch_block env faults e w1) as _.
      assert (Hcb : ∃ n2, trace (catch_block env faults e w1).2 = trace w1 ++ n2).
      { unfold catch_block, bind at 1. simpl.
        destruct (handled_recovery env faults
                    (add_event (ELog ERROR ("Error resetting daily request counts: " +:+ exn_msg e)) w1))
          as (n2 & Hn2 & _).
        simpl in Hn2. rewrite Hn2, <-(assoc_L (++)). by eexists. }
      destruct Hcb as (n2 & ->). rewrite Hrest, <-(assoc_L (++)). simpl. by eexists. }
    destruct Hg as (rest & ->). rewrite <-(assoc_L (++)). simpl. by do 2 eexists.
  - intros e Hl Hf. split; [apply resetDailyRequests_resolves|].
    subst r. rewrite resetDailyRequests_state.
    assert (Hg : ∃ w1, guarded env faults w = (Return, w1) ∧ users w1 = users w
                   ∧ trace w1 = trace w ++ [lock_call env None;
                       ELog INFO "Daily reset already running on another instance - skipping"]).
    { unfold guarded, try_catch, try_block, bind.
      destruct (acquire_lock_held env faults w e Hc Hl Hf) as (w1 & -> & _ & Hu & Ht).
      by exists w1. }
    destruct Hg as (w1 & -> & Hu & Ht). simpl.
    destruct (finally_block_spec env faults w1) as (w2 & -> & Hu2 & Hfin).
    rewrite Hc in Hfin. destruct Hfin as (thrown & Ht2 & _). simpl.
    split; [congruence|]. exists thrown. by rewrite Ht2, Ht, <-(assoc_L (++)).
  - intros t Hl Hf Ht.
    destruct (acquire_lock_free env faults w Hc Hl Hf) as (w1 & -> & Hs & _). simpl.
    rewrite Hs, live_insert_eq. simpl. rewrite bool_decide_eq_false_2; [done|lia].
Qed.

Lemma held_lock_skips_the_reset_witness :
  users (resetDailyRequests env_b no_faults world_locked_by_a).2 = users world_locked_by_a.
Proof.
  pose proof (held_lock_skips_the_reset env_b no_faults world_locked_by_a eq_refl) as H.
  simpl in H. destruct H as (_ & H & _).
  destruct (H lock_of_a) as (_ & Hu & _); [vm_compute; reflexivity|reflexivity|].
  exact Hu.
Defined.

(** C4, as the specification words it, fails twice. A process without a
    Redis client resets the counters without any lock attempt; and two
    instances that share the store and run one minute apart on the same
    day both carry out the reset, the second finding the lock
    released. *)
Lemma reset_is_not_once_per_day :
  (let r := resetDailyRequests env_single no_faults sample_world in
   performed_reset (trace r.2) = true
   ∧ existsb is_redis_call (trace r.2) = false)
  ∧ (let r1 := resetDailyRequests env_a no_faults sample_world in
     let r2 := resetDailyRequests env_b no_faults (handed_over r1.2) in
     performed_reset (trace r1.2) = true
     ∧ performed_reset (trace r2.2) = true).
Proof. vm_compute. repeat split. Qed.

(** C5, as the code has it: when the lock attempt succeeds (or there
    is no Redis client and so no lock) and no call of the main path
    fails, the run resolves and one bulk update (and no row-by-row save)
    sets [requestsToday] of every row to 0; with a Redis client the
    completion stamp is then written to the store under
    [last_daily_reset], to be kept for two days; without one nothing is
    sent to Redis and the store is left as it was. *)
Theorem successful_run_resets_then_stamps (env : Env) (faults : Faults) (w : World) :
  (redis_client env = true → live (now env) (store w) lockKey = None) →
  main_calls_succeed env faults →
  let r := resetDailyRequests env faults w in
  r.1 = Resolved
  ∧ users r.2 = map (reset_row (now env)) (users w)
  ∧ Forall (λ u, requestsToday u = 0%Z) (users r.2)
  ∧ (∃ before after,
       trace r.2 = trace w ++ before ++ [ECall UserUpdate None] ++ after
       ∧ Forall (λ e, is_db_write e = false) (before ++ after)
       ∧ if redis_client env
         then ∃ a1 a2,
                after = a1 ++ [ECall (RedisSet "last_daily_reset" (toISOString (now env))) None]
                           ++ a2
         else Forall (λ e, is_redis_call e = false) (before ++ after))
  ∧ if redis_client env
    then store r.2 !! "last_daily_reset"
         = Some {| value := toISOString (now env);
                   expireAt := Some (now env + 172800000)%Z |}
    else store r.2 = store w.
Proof.
  intros Hl (H1 & H2 & H3 & H4 & H5 & H6) r.
  split; [apply resetDailyRequests_resolves|].
  subst r. rewrite resetDailyRequests_state.
  assert (Hzero : ∀ us, Forall (λ u, requestsToday u = 0%Z) (map (reset_row (now env)) us)).
  { intros us. apply Forall_forall. intros u Hin.
    apply list_elem_of_fmap in Hin as (u0 & -> & _). done. }
  destruct (redis_client env) eqn:Hc.
  - destruct (acquire_lock_free env faults w Hc (Hl eq_refl) H1) as (w1 & Ha & Hs1 & Hu1 & Ht1).
    destruct (bulk_reset_ok env faults w1 H2 H3 H4 H5 H6)
      as (w2 & m1 & m2 & ver & Hb & Hu2 & Hs2 & Ht2 & Hver).
    assert (Hg : guarded env faults w = (Normal tt, w2)).
    { unfold guarded, try_catch, try_block, bind. by rewrite Ha, Hb. }
    rewrite Hg. simpl.
    destruct (finally_block_spec env faults w2) as (w3 & -> & Hu3 & Hfin).
    rewrite Hc in Hfin, Hs2, Ht2. destruct Hfin as (thrown & Ht3 & _ & Hs3). simpl.
    assert (Hu : users w3 = map (reset_row (now env)) (users w)) by congruence.
    split; [done|]. split; [by rewrite Hu|]. split.
    + exists [lock_call env None;
              ELog INFO ("Acquired daily reset lock on instance " +:+ instance_name env);
              ELog INFO m1],
             (([ECall UserCount None; ELog INFO m2; ECall UserFindOne None] ++ ver)
              ++ [ECall (RedisSet "last_daily_reset" (toISOString (now env))) None]
              ++ [ECall (RedisExpire "last_daily_reset" (86400 * 2)) None;
                  release_call env thrown; release_line thrown]).
      split; [by rewrite Ht3, Ht2, Ht1, <-!(assoc_L (++))|]. split; [|by do 2 eexists].
      rewrite !Forall_app. split; [repeat constructor|]. split; [split|].
      * repeat constructor.
      * eapply Forall_impl; [exact Hver|]. by intros e (msg & ->).
      * split; [repeat constructor|]. destruct thrown; repeat constructor.
    + assert (Hst : store w2 !! "last_daily_reset"
                    = Some {| value := toISOString (now env);
                              expireAt := Some (now env + 172800000)%Z |})
        by (rewrite Hs2; apply lookup_insert_eq).
      rewrite Hs3. destruct thrown; [done|].
      destruct (release_script_spec (now env) lockKey (lockValue env) (store w2))
        as [->|(-> & _)]; [done|].
      by rewrite lookup_delete_ne.
  - pose proof (acquire_lock_no_client env faults w Hc) as Ha.
    set (w1 := add_event (ELog WARN "Redis not available - proceeding with reset (single instance mode)") w) in Ha.
    destruct (bulk_reset_ok env faults w1 H2 H3 H4 H5 H6)
      as (w2 & m1 & m2 & ver & Hb & Hu2 & Hs2 & Ht2 & Hver).
    assert (Hg : guarded env faults w = (Normal tt, w2)).
    { unfold guarded, try_catch, try_block, bind. by rewrite Ha, Hb. }
    rewrite Hg. simpl.
    destruct (finally_block_spec env faults w2) as (w3 & -> & Hu3 & Hfin).
    rewrite Hc in Hfin, Hs2, Ht2. destruct Hfin as (Ht3 & Hs3). simpl in *.
    split; [congruence|]. split; [by rewrite Hu3, Hu2|]. split; [|congruence].
    exists [ELog WARN "Redis not available - proceeding with reset (single instance mode)";
            ELog INFO m1],
           ([ECall UserCount None; ELog INFO m2; ECall UserFindOne None] ++ ver).
    split; [by rewrite Ht3, Ht2, app_nil_r, <-!(assoc_L (++))|].
    assert (Hv1 : Forall (λ e, is_db_write e = false) ver)
      by (eapply Forall_impl; [exact Hver|]; by intros e (msg & ->)).
    assert (Hv2 : Forall (λ e, is_redis_call e = false) ver)
      by (eapply Forall_impl; [exact Hver|]; by intros e (msg & ->)).
    split; rewrite !Forall_app; (split; [repeat constructor|split; [repeat constructor|done]]).
Qed.

Lemma successful_run_resets_then_stamps_witness :
  Forall (λ u, requestsToday u = 0%Z) (users (resetDailyRequests env_a no_faults sample_world).2).
Proof.
  pose proof (successful_run_resets_then_stamps env_a no_faults sample_world) as H.
  destruct H as (_ & _ & H & _); [intros _; vm_compute; reflexivity|repeat split|].
  exact H.
Defined.

(** C5, as the specification words it, fails: a run without a Redis
    client in which nothing fails resolves and resets every row in one
    bulk update, and no completion stamp is recorded anywhere. *)
Lemma successful_run_without_store_leaves_no_stamp :
  let r := resetDailyRequests env_single no_faults sample_world in
  r.1 = Resolved
  ∧ performed_reset (trace r.2) = true
  ∧ forallb (λ u, bool_decide (requestsToday u = 0%Z)) (users r.2) = true
  ∧ existsb is_redis_call (trace r.2) = false
  ∧ store r.2 !! "last_daily_reset" = None.
Proof. vm_compute. repeat split. Qed.

(** The release, whatever the lock holds: with a Redis client, however
    the guarded part of the run ended, the [finally] block sends the
    release script for the lock key with the value of this run and logs
    one line; that script leaves the store as it was or deletes the
    lock key, and deletes it only when the key holds a value equal to
    this run's. So a lock held under a different value is still there
    after the run, and a lock this run took is gone after it when the
    script did not fail. Without a client no lock is taken and nothing
    is sent. Nothing here makes the value of a run its own: see
    [LockOwnership] for two runs with one value. *)
Theorem lock_released_by_compare_and_delete (env : Env) (faults : Faults) (w : World) :
  let w1 := (guarded env faults w).2 in
  let w' := (resetDailyRequests env faults w).2 in
  if redis_client env then
    (∃ thrown, trace w' = trace w1 ++ [release_call env thrown; release_line thrown])
    ∧ (store w' = store w1
       ∨ (store w' = delete lockKey (store w1)
          ∧ ∃ e, store w1 !! lockKey = Some e ∧ value e = lockValue env))
    ∧ (∀ e, live (now env) (store w) lockKey = Some e →
            value e ≠ lockValue env → store w' = store w)
    ∧ (live (now env) (store w) lockKey = None →
       faults (RedisSetNX lockKey (lockValue env) 300000) = None →
       faults (RedisEval [lockKey] [lockValue env]) = None →
       store w' !! lockKey = None)
  else trace w' = trace w1 ∧ store w' = store w1.
Proof.
  intros w1 w'. subst w1 w'. rewrite resetDailyRequests_state.
  destruct (finally_block_spec env faults (guarded env faults w).2) as (w2 & -> & _ & Hfin).
  simpl. destruct (redis_client env) eqn:Hc; [|done].
  destruct Hfin as (thrown & Ht & Hthrown & Hs).
  assert (Hcases : store w2 = store (guarded env faults w).2
            ∨ (store w2 = delete lockKey (store (guarded env faults w).2)
               ∧ ∃ e, store (guarded env faults w).2 !! lockKey = Some e
                      ∧ value e = lockValue env)).
  { rewrite Hs. destruct thrown; [by left|]. apply release_script_spec. }
  split; [by exists thrown|]. split; [done|]. split.
  - intros e Hl Hne.
    pose proof (guarded_held_store env faults w e Hc Hl) as Hg.
    destruct Hcases as [->|(_ & e' & He' & Hv)]; [done|].
    rewrite Hg, (live_lookup _ _ _ _ Hl) in He'. injection He' as <-. done.
  - intros Hl Hf He.
    pose proof (guarded_free_lock env faults w Hc Hl Hf) as Hg.
    rewrite Hs, Hthrown, He. unfold release_script, live. rewrite Hg. simpl.
    rewrite bool_decide_eq_false_2 by lia.
    rewrite decide_True by done. simpl. apply lookup_delete_eq.
Qed.

Lemma lock_released_by_compare_and_delete_witness :
  store (resetDailyRequests env_b no_faults world_locked_by_a).2 = store world_locked_by_a
  ∧ store (resetDailyRequests env_a no_faults sample_world).2 !! lockKey = None.
Proof.
  split.
  - pose proof (lock_released_by_compare_and_delete env_b no_faults world_locked_by_a) as H.
    simpl in H. destruct H as (_ & _ & H & _).
    apply (H lock_of_a); [vm_compute; reflexivity|vm_compute; discriminate].
  - pose proof (lock_released_by_compare_and_delete env_a no_faults sample_world) as H.
    simpl in H. destruct H as (_ & _ & _ & H).
    apply H; [vm_compute; reflexivity|reflexivity|reflexivity].
Defined.

(** The [catch] block opens with the error line, the announcement of
    the alternate method and the [findAll] call. *)
Lemma catch_block_starts (env : Env) (faults : Faults) (e : Exn) (w : World) :
  ∃ rest, trace (catch_block env faults e w).2
          = trace w
            ++ [ELog ERROR ("Error resetting daily request counts: " +:+ exn_msg e);
                ELog INFO "Attempting alternate daily reset method using findAll + individual updates";
                ECall UserFindAll (faults UserFindAll)]
            ++ rest.
Proof.
  unfold catch_block, try_catch, User_findAll, call, failed_call.
  cbv [bind log modify]. simpl.
  destruct (faults UserFindAll) as [err|]; simpl.
  - rewrite <-!(assoc_L (++)). by eexists.
  - match goal with |- context [update_each env faults ?us 0 0 ?w0] =>
      destruct (raises_update_each env faults us 0 0 w0) as (new & Ht & _);
      destruct (update_each env faults us 0 0 w0) as [[n| |err] w2]
    end; simpl in *; rewrite Ht; simpl; rewrite <-!(assoc_L (++)); by eexists.
Qed.

(** C8: whatever fails, the promise of [resetDailyRequests] resolves,
    the run only appends to the trace, and every error a call threw
    during the run (the bulk update, the fallback, the release of the
    lock) is printed by an [error] or [warn] line of the run. When the
    [try] block throws, the run goes on with the error line and the
    alternate method, which starts by [findAll]. *)
Theorem resetDailyRequests_never_rejects (env : Env) (faults : Faults) (w : World) :
  (resetDailyRequests env faults w).1 = Resolved
  ∧ (∃ new, trace (resetDailyRequests env faults w).2 = trace w ++ new
      ∧ ∀ op e, ECall op (Some e) ∈ new →
          ∃ lvl pre, (lvl = ERROR ∨ lvl = WARN) ∧ ELog lvl (pre +:+ exn_msg e) ∈ new)
  ∧ (∀ e w1, try_block env faults w = (Throw e, w1) →
      ∃ rest, trace (resetDailyRequests env faults w).2
              = trace w1
                ++ [ELog ERROR ("Error resetting daily request counts: " +:+ exn_msg e);
                    ELog INFO "Attempting alternate daily reset method using findAll + individual updates";
                    ECall UserFindAll (faults UserFindAll)]
                ++ rest).
Proof.
  split; [|split].
  - unfold resetDailyRequests, run_async, try_finally.
    destruct (handled_guarded env faults w) as (n1 & _ & _ & Hnt).
    destruct (guarded env faults w) as [c w1]. simpl in *.
    destruct (finally_block_normal env faults w1) as (w2 & ->).
    destruct c as [[]| |e]; [done..|by destruct (Hnt e)].
  - rewrite resetDailyRequests_state.
    destruct (handled_guarded env faults w) as (n1 & Ht1 & Hwl1 & _).
    destruct (handled_finally_block env faults (guarded env faults w).2) as (n2 & Ht2 & Hwl2 & _).
    exists (n1 ++ n2). split; [by rewrite Ht2, Ht1, <-(assoc_L (++))|].
    by apply well_logged_app.
  - intros e w1 Htry. rewrite resetDailyRequests_state.
    unfold guarded, try_catch. rewrite Htry.
    destruct (catch_block_starts env faults e w1) as (rest & Hrest).
    destruct (handled_finally_block env faults (catch_block env faults e w1).2) as (n2 & -> & _).
    rewrite Hrest, <-!(assoc_L (++)). by eexists.
Qed.

Lemma resetDailyRequests_never_rejects_witness :
  ∃ rest, trace (resetDailyRequests env_a bulk_update_fails sample_world).2
          = trace (try_block env_a bulk_update_fails sample_world).2
            ++ [ELog ERROR "Error resetting daily request counts: SequelizeDatabaseError";
                ELog INFO "Attempting alternate daily reset method using findAll + individual updates";
                ECall UserFindAll None]
            ++ rest.
Proof.
  destruct (resetDailyRequests_never_rejects env_a bulk_update_fails sample_world)
    as (_ & _ & H).
  apply (H (Err "SequelizeDatabaseError")
           (try_block env_a bulk_update_fails sample_world).2).
  vm_compute. reflexivity.
Defined.

End DailyResetFacts.

(** ** The WebSocket lifecycle controller *)

Module WsRoutesFacts.
Import Eff WsRoutes WsSamples.

(** The [catch] block: it logs, calls [ws.close(1011, ...)] last and
    never throws. *)
Lemma on_error_spec (c : Conn) (e : Exn) (t : list Event) :
  on_error c e t
  = (Normal tt, t ++ [ELog ERROR ("WebSocket connection error: " +:+ exn_msg e);
                      EClose 1011 "Server error"]).
Proof.
  unfold on_error, try_catch. cbv [bind ws_close emit log modify throw ret].
  destruct (ws_close_fault c 1011); simpl; by rewrite <-(assoc_L (++)).
Qed.

Lemma closed_with_app (code : Z) (a b : list Event) :
  closed_with code (a ++ b) = closed_with code a || closed_with code b.
Proof. unfold closed_with. apply existsb_app. Qed.

Lemma called_addClient_app (a b : list Event) :
  called_addClient (a ++ b) = called_addClient a || called_addClient b.
Proof. unfold called_addClient. apply existsb_app. Qed.

Lemma called_validate_app (a b : list Event) :
  called_validate (a ++ b) = called_validate a || called_validate b.
Proof. unfold called_validate. apply existsb_app. Qed.

(** The listener as a whole, in terms of its [try] block. *)
Lemma connection_unfold (c : Conn) :
  connection c
  = match setup c [] with
    | (Throw e, t) =>
        (Resolved, t ++ [ELog ERROR ("WebSocket connection error: " +:+ exn_msg e);
                         EClose 1011 "Server error"])
    | (_, t) => (Resolved, t)
    end.
Proof.
  unfold connection, run_async, try_catch.
  destruct (setup c []) as [[[]| |e] t]; [done..|].
  by rewrite on_error_spec.
Qed.

(** The rejection of a connection with a missing parameter. *)
Lemma setup_missing (c : Conn) (ps : list (string * string)) :
  url_params c = Some ps →
  truthy (searchParams_get "id" ps) = None ∨ truthy (searchParams_get "token" ps) = None →
  ∃ r, setup c [] = (r, [ELog WARN "Rejecting WebSocket connection: missing id or token";
                         EClose 1008 "Missing client ID or token"]).
Proof.
  intros Hu Hm. unfold setup, bind at 1, parse_url. rewrite Hu. simpl.
  destruct (truthy (searchParams_get "id" ps)) as [id|];
    destruct (truthy (searchParams_get "token" ps)) as [token|];
    [by destruct Hm|..].
  all: cbv [bind ws_close emit log modify throw ret early_return].
  all: destruct (ws_close_fault c 1008); by eexists.
Qed.

(** The rejection of a connection the auth adapter turns down. *)
Lemma setup_invalid (c : Conn) (ps : list (string * string)) (id token : string) :
  url_params c = Some ps →
  truthy (searchParams_get "id" ps) = Some id →
  truthy (searchParams_get "token" ps) = Some token →
  validateHeadlessSession c id token = inr false →
  ∃ r, setup c [] = (r, [EValidate id token;
                         ELog WARN ("Rejecting invalid headless client: " +:+ id);
                         EClose 1008 "Invalid headless session"]).
Proof.
  intros Hu Hi Ht Hv. unfold setup, bind at 1, parse_url. rewrite Hu. simpl.
  rewrite Hi, Ht. cbv [bind validate ws_close emit log modify throw ret early_return].
  rewrite Hv. simpl. destruct (ws_close_fault c 1008); by eexists.
Qed.

(** A valid session reaches [ClientManager.addClient]. *)
Lemma setup_valid (c : Conn) (ps : list (string * string)) (id token : string) :
  url_params c = Some ps →
  truthy (searchParams_get "id" ps) = Some id →
  truthy (searchParams_get "token" ps) = Some token →
  validateHeadlessSession c id token = inr true →
  ∃ r rest, setup c [] = (r, [EValidate id token; EAddClient id token] ++ rest).
Proof.
  intros Hu Hi Ht Hv. unfold setup, bind at 1, parse_url. rewrite Hu. simpl.
  rewrite Hi, Ht. cbv [bind validate add_client emit log modify throw ret early_return].
  rewrite Hv. simpl. destruct (addClient c id token) as [e|[cl|]]; simpl; by do 2 eexists.
Qed.

(** A registered client gets its ping timer and its three listeners;
    the [close] and [error] listeners name the client by its id. *)
Lemma setup_registered (c : Conn) (ps : list (string * string)) (id token : string)
    (client : Client) :
  url_params c = Some ps →
  truthy (searchParams_get "id" ps) = Some id →
  truthy (searchParams_get "token" ps) = Some token →
  validateHeadlessSession c id token = inr true →
  addClient c id token = inr (Some client) →
  connection c
  = (Resolved,
     [EValidate id token; EAddClient id token;
      ESetInterval (WEBSOCKET_PING_INTERVAL_MS c);
      EOn "close" [ClearInterval; RemoveClient id];
      EOn "pong" [UpdateLastSeen];
      EOn "error" [ClearInterval; LogError id; RemoveClient id]]).
Proof.
  intros Hu Hi Ht Hv Ha. rewrite connection_unfold.
  unfold setup, bind at 1, parse_url. rewrite Hu. simpl.
  rewrite Hi, Ht. cbv [bind validate add_client emit log modify throw ret early_return].
  rewrite Hv. simpl. by rewrite Ha.
Qed.

(** C1, as the code has it: the promise of the listener always
    resolves. A connection whose [id] or [token] is missing or empty is
    closed with 1008 without a call to the auth adapter or to
    [addClient]; one the auth adapter turns down is closed with 1008
    without a call to [addClient]; when anything throws during the
    setup, the last thing the listener does is [ws.close(1011)]; and a
    connection with both parameters that the adapter accepts reaches
    [ClientManager.addClient] with its id and token. *)
Theorem handshake_outcomes (c : Conn) :
  let t := (connection c).2 in
  (connection c).1 = Resolved
  ∧ (∀ ps, url_params c = Some ps →
       truthy (searchParams_get "id" ps) = None ∨ truthy (searchParams_get "token" ps) = None →
       closed_with 1008 t = true ∧ called_addClient t = false ∧ called_validate t = false)
  ∧ (∀ ps id token, url_params c = Some ps →
       truthy (searchParams_get "id" ps) = Some id →
       truthy (searchParams_get "token" ps) = Some token →
       validateHeadlessSession c id token = inr false →
       closed_with 1008 t = true ∧ called_addClient t = false)
  ∧ (setup_threw c = true →
       closed_with 1011 t = true ∧ last t = Some (EClose 1011 "Server error"))
  ∧ (∀ ps id token, url_params c = Some ps →
       truthy (searchParams_get "id" ps) = Some id →
       truthy (searchParams_get "token" ps) = Some token →
       validateHeadlessSession c id token = inr true →
       EAddClient id token ∈ t).
Proof.
  intros t. subst t. rewrite connection_unfold. split; [|split; [|split; [|split]]].
  - by destruct (setup c []) as [[[]| |e] t].
  - intros ps Hu Hm. destruct (setup_missing c ps Hu Hm) as (r & ->).
    destruct r as [[]| |e]; simpl; done.
  - intros ps id token Hu Hi Ht Hv.
    destruct (setup_invalid c ps id token Hu Hi Ht Hv) as (r & ->).
    destruct r as [[]| |e]; simpl; done.
  - unfold setup_threw. destruct (setup c []) as [[[]| |e] t]; [done..|].
    intros _. simpl. split.
    + rewrite closed_with_app. simpl. apply orb_true_r.
    + by rewrite last_app.
  - intros ps id token Hu Hi Ht Hv.
    destruct (setup_valid c ps id token Hu Hi Ht Hv) as (r & rest & ->).
    destruct r as [[]| |e]; simpl; set_solver.
Qed.

Lemma handshake_outcomes_witness :
  (closed_with 1008 (connection conn_no_id).2 = true
   ∧ called_addClient (connection conn_no_id).2 = false)
  ∧ (closed_with 1008 (connection conn_invalid).2 = true
     ∧ called_addClient (connection conn_invalid).2 = false)
  ∧ closed_with 1011 (connection conn_auth_down).2 = true
  ∧ EAddClient "W1" "t" ∈ (connection conn_W1).2.
Proof.
  split; [|split; [|split]].
  - destruct (handshake_outcomes conn_no_id) as (_ & H & _).
    destruct (H [("token", "t")]) as (H1 & H2 & _);
      [reflexivity|left; reflexivity|]. by split.
  - destruct (handshake_outcomes conn_invalid) as (_ & _ & H & _).
    apply (H [("id", "W1"); ("token", "t")] "W1" "t"); reflexivity.
  - destruct (handshake_outcomes conn_auth_down) as (_ & _ & _ & H & _).
    apply H. reflexivity.
  - destruct (handshake_outcomes conn_W1) as (_ & _ & _ & _ & H).
    apply (H [("id", "W1"); ("token", "t")] "W1" "t"); reflexivity.
Defined.

(** C1, as the specification words it, fails: on [?id=&token=t] both
    query parameters are there, the auth adapter would accept any
    session, registration would succeed and nothing throws, and yet the
    connection is closed with 1008 and neither the adapter nor
    [addClient] is called. *)
Lemma empty_id_is_rejected :
  let ps := [("id", EmptyString); ("token", "t")] in
  let t := (connection conn_empty_id).2 in
  url_params conn_empty_id = Some ps
  ∧ searchParams_get "id" ps = Some EmptyString
  ∧ searchParams_get "token" ps = Some "t"
  ∧ (∀ id token, validateHeadlessSession conn_empty_id id token = inr true)
  ∧ setup_threw conn_empty_id = false
  ∧ closed_with 1008 t = true
  ∧ called_validate t = false
  ∧ called_addClient t = false.
Proof. repeat split. Qed.

End WsRoutesFacts.

(** ** The session registry *)

Module RegistryFacts.
Import Registry RegistryTerms.

Lemma remove_lookup (id : string) (session : nat) (st : State) :
  registry (remove id session st) !! id = after_remove (registry st !! id) session.
Proof.
  unfold remove, after_remove. destruct (registry st !! id) as [stored|] eqn:E; [|done].
  destruct (decide (stored = session)); simpl; [apply lookup_delete_eq|done].
Qed.

Lemma remove_lookup_ne (id id' : string) (session : nat) (st : State) :
  id' ≠ id → registry (remove id session st) !! id' = registry st !! id'.
Proof.
  intros Hne. unfold remove. destruct (registry st !! id) as [stored|]; [|done].
  destruct (decide (stored = session)); simpl; [by apply lookup_delete_ne|done].
Qed.


Lemma remove_idempotent (id : string) (session : nat) (st : State) :
  remove id session (remove id session st) = remove id session st.
Proof.
  unfold remove at 2 3. destruct (registry st !! id) as [stored|] eqn:E.
  - destruct (decide (stored = session)) as [->|Hne].
    + unfold remove. simpl. by rewrite lookup_delete_eq.
    + unfold remove. rewrite E. by rewrite decide_False.
  - unfold remove. by rewrite E.
Qed.

(** A removal in the name of one Session leaves every other registered
    Session where it is. *)
Lemma remove_keeps (id id' : string) (session other : nat) (st : State) :
  registry st !! id' = Some other → other ≠ session →
  registry (remove id session st) !! id' = Some other.
Proof.
  intros Hreg Hne. destruct (decide (id' = id)) as [->|Hid].
  - rewrite remove_lookup, Hreg. simpl. by rewrite decide_False.
  - by rewrite remove_lookup_ne.
Qed.

Lemma close_keeps (id : string) (session other : nat) (st : State) :
  registry st !! id = Some other → other ≠ session →
  registry (close session st) !! id = Some other.
Proof.
  intros Hreg Hne. unfold close. destruct (heap st !! session) as [s|]; [|done].
  by apply remove_keeps.
Qed.











Section Reachable.
Variable validateHeadlessSession : string → string → bool.


Lemma add_accepts (id token : string) (now : Z) (st : State) :
  validateHeadlessSession id token = true →
  allocated st →
  (add validateHeadlessSession id token now st).1 = Accepted (next st)
  ∧ registry (add validateHeadlessSession id token now st).2 !! id = Some (next st).
Proof.
  intros Hv Ha. unfold Registry.add. rewrite Hv. simpl. split; [done|].
  destruct (registry st !! id) as [old|] eqn:Hold; simpl.
  - apply close_keeps; simpl; [apply lookup_insert_eq|].
    specialize (Ha id old Hold). lia.
  - apply lookup_insert_eq.
Qed.





End Reachable.

End RegistryFacts.

(** ** The entity router *)

Module EntityRoutesFacts.
Import Eff EntityRoutes Dispatcher EntitySamples.

Section Denylist.
Variable validateScript : JSValue → bool.

(** [validateParams] of [/create] on a macro whose command fails the
    denylist. *)
Lemma create_validateParams_rejects (fields data : list (string * JSValue))
    (logs : list LogLine) :
  lookup_field "entityType" fields = Some (JSString "Macro") →
  lookup_field "data" fields = Some (JSObject data) →
  validateScript (default JSUndefined (lookup_field "command" data)) = false →
  ∃ logs',
    create_validateParams validateScript (JSObject fields) logs
    = (Normal (Some {| error := "Script contains forbidden patterns";
                       suggestion := "Ensure the script does not access localStorage, sessionStorage, or eval()" |}),
       logs').
Proof.
  intros Ht Hd Hv. unfold create_validateParams.
  cbv [bind get_prop ret log_warn modify]. rewrite Ht, Hd. simpl. rewrite Hv. simpl.
  by eexists.
Qed.

(** [validateParams] of [/create] on anything that is not a macro. *)
Lemma create_validateParams_accepts (fields : list (string * JSValue))
    (logs : list LogLine) :
  is_string (default JSUndefined (lookup_field "entityType" fields)) "Macro" = false →
  create_validateParams validateScript (JSObject fields) logs = (Normal None, logs).
Proof.
  intros Hn. unfold create_validateParams. cbv [bind get_prop ret]. by rewrite Hn.
Qed.

End Denylist.

(** C2: whatever the denylist predicate is, on a [POST /entity/create]
    whose [entityType] is ["Macro"] and whose [data.command] fails the
    predicate, [validateParams] returns exactly the rejection
    [{error: "Script contains forbidden patterns", suggestion: ...}],
    the handler answers 400 with that payload and sends no envelope;
    and on parameters whose [entityType] is not ["Macro"],
    [validateParams] returns [null] and logs nothing. *)
Theorem macro_denylist_rejects_with_400 (validateScript : JSValue → bool) :
  let rejection :=
    {| error := "Script contains forbidden patterns";
       suggestion := "Ensure the script does not access localStorage, sessionStorage, or eval()" |} in
  let create := config (route_create validateScript) in
  (∀ req up required data,
      extract_required (requiredParams create) req = inr required →
      let params := required ++ extract_optional (optionalParams create) req in
      lookup_field "entityType" params = Some (JSString "Macro") →
      lookup_field "data" params = Some (JSObject data) →
      validateScript (default JSUndefined (lookup_field "command" data)) = false →
      (∃ logs, create_validateParams validateScript (JSObject params) []
               = (Normal (Some rejection), logs))
      ∧ createApiRoute create req up
        = (Some {| status := 400; payload := rejection_body rejection |}, []))
  ∧ (∀ fields logs,
      is_string (default JSUndefined (lookup_field "entityType" fields)) "Macro" = false →
      create_validateParams validateScript (JSObject fields) logs = (Normal None, logs)).
Proof.
  intros rejection create. split.
  - intros req up required data Hreq params Ht Hd Hv.
    destruct (create_validateParams_rejects validateScript params data [] Ht Hd Hv)
      as (logs & Hrej).
    split; [by exists logs|].
    unfold createApiRoute. rewrite Hreq.
    change (validateParams create) with (Some (create_validateParams validateScript)).
    cbv beta iota zeta. fold params. by rewrite Hrej.
  - intros fields logs. apply create_validateParams_accepts.
Qed.

Lemma macro_denylist_rejects_with_400_witness :
  createApiRoute (config (route_create refuses_eval)) macro_request world_up
  = (Some {| status := 400;
             payload := JSObject
               [("error", JSString "Script contains forbidden patterns");
                ("suggestion", JSString "Ensure the script does not access localStorage, sessionStorage, or eval()")] |},
     [])
  ∧ create_validateParams refuses_eval
      (JSObject [("clientId", JSString "W1"); ("entityType", JSString "Actor")]) []
    = (Normal None, []).
Proof.
  destruct (macro_denylist_rejects_with_400 refuses_eval) as [H1 H2]. split.
  - destruct (H1 macro_request world_up
                [("clientId", JSString "W1"); ("entityType", JSString "Macro");
                 ("data", JSObject [("name", JSString "m");
                                    ("command", JSString "eval('1')")])]
                [("name", JSString "m"); ("command", JSString "eval('1')")])
      as [_ H]; [reflexivity..|exact H].
  - apply H2. reflexivity.
Defined.

(** C9: the router registers the nine routes [/get], [/create],
    [/update], [/delete], [/give], [/remove], [/decrease], [/increase]
    and [/kill]; each requires [clientId]; [/give] and [/remove] accept
    it from the body or the query string, every other route from the
    query string only. *)
Theorem clientId_sources_by_route (validateScript : JSValue → bool) :
  map path (entityRouter validateScript)
  = ["/get"; "/create"; "/update"; "/delete"; "/give"; "/remove";
     "/decrease"; "/increase"; "/kill"]
  ∧ Forall (λ r,
       is_required "clientId" (config r) = true
       ∧ accepted_from "clientId" r
         = Some (if bool_decide (path r = "/give" ∨ path r = "/remove")
                 then [body; query] else [query]))
      (entityRouter validateScript).
Proof. split; [reflexivity|]. repeat constructor. Qed.

(** What the declared sources mean for a request that names its world in
    the body only: extraction finds the id for [/give] and [/remove] and
    reports it missing for every other route. *)
Lemma body_only_clientId (validateScript : JSValue → bool) :
  map (λ r, extract_required (requiredParams (config r)) body_only_request)
      [route_give; route_remove; route_get; route_delete; route_kill]
  = [inr [("clientId", JSString "W1")]; inr [("clientId", JSString "W1")];
     inl {| status := 400; payload := error_body "MissingParameter" |};
     inl {| status := 400; payload := error_body "MissingParameter" |};
     inl {| status := 400; payload := error_body "MissingParameter" |}].
Proof. reflexivity. Qed.

End EntityRoutesFacts.

(** ** The daily reset job: the fallback, and what a run leaves alone *)

Module DailyResetMore.
Import Eff DailyReset DailyResetTerms DailyResetMoreTerms DailyResetFacts Samples.

Lemma reset_row_idemp (t : Z) (u : User) : reset_row t (reset_row t u) = reset_row t u.
Proof. done. Qed.

Lemma reset_rows_idemp (t : Z) (us : list User) :
  map (reset_row t) (map (reset_row t) us) = map (reset_row t) us.
Proof. rewrite map_map. by apply map_ext. Qed.

Lemma model_instance_reset (t : Z) (us : list User) :
  Forall model_instance us → Forall model_instance (map (reset_row t) us).
Proof.
  intros H. apply Forall_forall. intros u Hin.
  apply list_elem_of_fmap in Hin as (u0 & -> & Hin0).
  by apply (proj1 (Forall_forall _ _) H u0).
Qed.

Section Fallback.
Variable env : Env.
Variable faults : Faults.

(** The loop when every object is a model instance and no save fails:
    rows [i], [i+1], ... are replaced, in order, by the reset objects. *)
Lemma update_each_all_saved (us : list User) (i n : nat) (w : World) :
  Forall model_instance us →
  (∀ j, faults (UserSave j) = None) →
  length (users w) = i + length us →
  ∃ w', update_each env faults us i n w = (Normal (n + length us), w')
    ∧ users w' = take i (users w) ++ map (reset_row (now env)) us
    ∧ store w' = store w
    ∧ ∃ new, trace w' = trace w ++ new ∧ Forall (λ e, ∃ j, e = ECall (UserSave j) None) new.
Proof.
  intros Hm Hf. revert i n w.
  induction Hm as [|u rest [Hsd Hsv] Hrest IH]; intros i n w Hlen.
  - simpl in *. exists w. split; [by rewrite Nat.add_0_r|].
    split; [by rewrite app_nil_r, take_ge by lia|]. split; [done|].
    exists []. by rewrite app_nil_r.
  - simpl in *. rewrite Hsd. unfold bind, assign, user_save. simpl. rewrite Hsv.
    unfold call. rewrite Hf.
    assert (Hnext : ∀ w1, users w1 = <[i := reset_row (now env) u]> (users w) →
              store w1 = store w → trace w1 = trace w ++ [ECall (UserSave i) None] →
              ∃ w', update_each env faults rest (S i) (S n) w1
                    = (Normal (n + S (length rest)), w')
                ∧ users w' = take i (users w) ++ reset_row (now env) u
                               :: map (reset_row (now env)) rest
                ∧ store w' = store w
                ∧ ∃ new, trace w' = trace w ++ new
                         ∧ Forall (λ e, ∃ j, e = ECall (UserSave j) None) new).
    { intros w1 Hu1 Hs1 Ht1.
      destruct (IH (S i) (S n) w1) as (w' & Hrun & Hu & Hs & new & Ht & Hnew).
      { rewrite Hu1, length_insert. lia. }
      exists w'. split; [rewrite Hrun; do 2 f_equal; lia|].
      split; [|split; [congruence|]].
      + rewrite Hu, Hu1.
        rewrite (take_S_r _ _ (reset_row (now env) u))
          by (apply list_lookup_insert_eq; lia).
        rewrite take_insert_ge by lia. by rewrite <-(assoc_L (++)).
      + exists (ECall (UserSave i) None :: new). split.
        * rewrite Ht, Ht1. by rewrite <-(assoc_L (++)).
        * constructor; [by eexists|done]. }
    destruct (is_stored_record u); simpl; apply Hnext; simpl;
      rewrite ?list_insert_insert_eq; done.
Qed.

(** The loop when the save of row [i + k] is the first to fail: the [k]
    rows before it are reset, and so is that row when its object is the
    stored record; the rows after it are as they were. *)
Lemma update_each_stops (us : list User) (i n k : nat) (w : World) (e : Exn) :
  Forall model_instance us →
  k < length us →
  (∀ j, j < k → faults (UserSave (i + j)) = None) →
  faults (UserSave (i + k)) = Some e →
  length (users w) = i + length us →
  ∃ w', update_each env faults us i n w = (Throw e, w')
    ∧ users w' = take i (users w) ++ map (reset_row (now env)) (take (reset_reach us k) us)
                 ++ drop (i + reset_reach us k) (users w)
    ∧ store w' = store w.
Proof.
  intros Hm. revert i n k w. induction Hm as [|u rest [Hsd Hsv] Hrest IH];
    intros i n k w Hk Hok Hbad Hlen; simpl in *; [lia|].
  rewrite Hsd. unfold bind, assign, user_save. simpl. rewrite Hsv. unfold call.
  destruct k as [|k].
  - rewrite Nat.add_0_r in Hbad. rewrite Hbad. unfold reset_reach. simpl.
    destruct (is_stored_record u); simpl; (eexists; split; [done|]); simpl.
    + split; [|done].
      replace (i + 1) with (S i) by lia. apply insert_take_drop. lia.
    + split; [|done]. rewrite Nat.add_0_r. by rewrite take_drop.
  - pose proof (Hok 0 ltac:(lia)) as H0. rewrite Nat.add_0_r in H0. rewrite H0.
    assert (Hreach : reset_reach (u :: rest) (S k) = S (reset_reach rest k)).
    { unfold reset_reach. simpl. destruct (rest !! k) as [x|]; [|done].
      by destruct (is_stored_record x). }
    rewrite Hreach. set (K := reset_reach rest k).
    assert (Hnext : ∀ w1, users w1 = <[i := reset_row (now env) u]> (users w) →
              store w1 = store w →
              ∃ w', update_each env faults rest (S i) (S n) w1 = (Throw e, w')
                ∧ users w' = take i (users w)
                               ++ map (reset_row (now env)) (take (S K) (u :: rest))
                               ++ drop (i + S K) (users w)
                ∧ store w' = store w).
    { intros w1 Hu1 Hs1.
      destruct (IH (S i) (S n) k w1) as (w' & Hrun & Hu & Hs).
      + lia.
      + intros j Hj. replace (S i + j) with (i + S j) by lia. apply Hok. lia.
      + by replace (S i + k) with (i + S k) by lia.
      + rewrite Hu1, length_insert. lia.
      + exists w'. split; [done|]. split; [|congruence].
        rewrite Hu, Hu1. fold K. simpl.
        rewrite (take_S_r _ _ (reset_row (now env) u))
          by (apply list_lookup_insert_eq; lia).
        rewrite take_insert_ge by lia.
        rewrite drop_insert_lt by lia.
        replace (S (i + K)) with (i + S K) by lia.
        by rewrite <-!(assoc_L (++)). }
    destruct (is_stored_record u); simpl; apply Hnext; simpl;
      rewrite ?list_insert_insert_eq; done.
Qed.

(** The [catch] block when [findAll] and every save work on model
    instances: every row is reset and the last line reports their
    number. *)
Lemma catch_block_recovers (e : Exn) (w : World) :
  faults UserFindAll = None →
  (∀ j, faults (UserSave j) = None) →
  Forall model_instance (users w) →
  ∃ w', catch_block env faults e w = (Normal tt, w')
    ∧ users w' = map (reset_row (now env)) (users w)
    ∧ store w' = store w
    ∧ last (trace w')
      = Some (ELog INFO ("Daily recovery method successful - reset "
                         +:+ pretty (length (users w)) +:+ " users individually")).
Proof.
  intros Hfa Hsv Hm. unfold catch_block, try_catch, User_findAll, call.
  cbv [bind log modify]. simpl. rewrite Hfa. simpl.
  match goal with |- context [update_each env faults ?us 0 0 ?w0] =>
    destruct (update_each_all_saved us 0 0 w0 Hm Hsv eq_refl)
      as (w1 & -> & Hu & Hs & _)
  end.
  simpl in *. eexists. split; [done|]. simpl. split; [done|]. split; [done|].
  by rewrite last_snoc.
Qed.

(** The [catch] block when [findAll] works and the save of row [k] is
    the first to fail. *)
Lemma catch_block_stops (e e' : Exn) (k : nat) (w : World) :
  faults UserFindAll = None →
  Forall model_instance (users w) →
  k < length (users w) →
  (∀ j, j < k → faults (UserSave j) = None) →
  faults (UserSave k) = Some e' →
  ∃ w', catch_block env faults e w = (Normal tt, w')
    ∧ users w' = map (reset_row (now env)) (take (reset_reach (users w) k) (users w))
                 ++ drop (reset_reach (users w) k) (users w)
    ∧ store w' = store w
    ∧ last (trace w')
      = Some (ELog ERROR ("Daily recovery attempt also failed: " +:+ exn_msg e')).
Proof.
  intros Hfa Hm Hk Hok Hbad. unfold catch_block, try_catch, User_findAll, call.
  cbv [bind log modify]. simpl. rewrite Hfa. simpl.
  match goal with |- context [update_each env faults ?us 0 0 ?w0] =>
    destruct (update_each_stops us 0 0 k w0 e' Hm Hk Hok Hbad eq_refl)
      as (w1 & -> & Hu & Hs)
  end.
  simpl in *. eexists. split; [done|]. simpl. split; [done|]. split; [done|].
  by rewrite last_snoc.
Qed.

End Fallback.

(** *** Relations a whole run maintains *)

Lemma rows_kept_refl (t : Z) (w : World) : rows_kept t w w.
Proof. unfold rows_kept. induction (users w); constructor; [by left|done]. Qed.

Lemma row_kept_trans (t : Z) (u1 u2 u3 : User) :
  row_kept t u1 u2 → row_kept t u2 u3 → row_kept t u1 u3.
Proof. intros [->| ->] [->| ->]; by (left + right). Qed.

Lemma rows_kept_trans (t : Z) (w1 w2 w3 : World) :
  rows_kept t w1 w2 → rows_kept t w2 w3 → rows_kept t w1 w3.
Proof. unfold rows_kept. apply Forall2_trans, row_kept_trans. Qed.

Lemma rows_kept_event (t : Z) (e : Event) (w : World) : rows_kept t w (add_event e w).
Proof. exact (rows_kept_refl t w). Qed.

Lemma rows_kept_reset (t : Z) (us : list User) :
  Forall2 (row_kept t) us (map (reset_row t) us).
Proof. induction us; constructor; [by right|done]. Qed.

Lemma rows_either_refl (t : Z) (w : World) : rows_either t w w.
Proof. by left. Qed.

Lemma rows_either_trans (t : Z) (w1 w2 w3 : World) :
  rows_either t w1 w2 → rows_either t w2 w3 → rows_either t w1 w3.
Proof.
  unfold rows_either. intros [H1|H1] [H2|H2]; rewrite H2, H1;
    [by left|by right|by right|right; apply reset_rows_idemp].
Qed.

Lemma rows_either_event (t : Z) (e : Event) (w : World) : rows_either t w (add_event e w).
Proof. by left. Qed.

Lemma other_keys_kept_refl (w : World) : other_keys_kept w w.
Proof. by intros k. Qed.

Lemma other_keys_kept_trans (w1 w2 w3 : World) :
  other_keys_kept w1 w2 → other_keys_kept w2 w3 → other_keys_kept w1 w3.
Proof. intros H1 H2 k Hk1 Hk2. by rewrite H2, H1. Qed.

Lemma other_keys_kept_event (e : Event) (w : World) : other_keys_kept w (add_event e w).
Proof. by intros k. Qed.

Lemma same_store_other_keys (w w' : World) : same_store w w' → other_keys_kept w w'.
Proof. intros H k _ _. by rewrite H. Qed.

Section Whole.
Variable env : Env.
Variable faults : Faults.

(** What the three blocks maintain, the run maintains. *)
Lemma run_preserves (R : World → World → Prop) :
  (∀ w1 w2 w3, R w1 w2 → R w2 w3 → R w1 w3) →
  preserves R (try_block env faults) →
  (∀ e, preserves R (catch_block env faults e)) →
  preserves R (finally_block env faults) →
  ∀ w, R w (after env faults w).
Proof.
  intros Ht Htry Hcatch Hfin w. unfold after. rewrite resetDailyRequests_state.
  eapply Ht; [|apply Hfin].
  by apply (preserves_try_catch R Ht).
Qed.

(** The [try] block changes the rows by the bulk update only. *)
Lemma rows_either_try_block : preserves (rows_either (now env)) (try_block env faults).
Proof.
  unfold try_block, acquire_lock, bulk_reset.
  destruct (redis_client env);
    preserve (rows_either_refl (now env)) (rows_either_trans (now env))
             (rows_either_event (now env));
    try (by left).
  all: try (match goal with |- preserves _ (match ?x with _ => _ end) => destruct x end;
            preserve (rows_either_refl (now env)) (rows_either_trans (now env))
                     (rows_either_event (now env))).
  all: try (by left).
  all: try (by right).
  all: unfold rows_either; simpl; destruct (set_nx_px _ _ _ _ _); by left.
Qed.

Lemma user_save_rows (all : list User) (i : nat) (u : User) (w : World) :
  all !! i = Some u →
  Forall2 (row_kept (now env)) all (users w) →
  Forall2 (row_kept (now env)) all (users (user_save faults i (reset_row (now env) u) w).2).
Proof.
  intros Hi Hr. unfold user_save, call, failed_call. simpl.
  destruct (has_save u); [|done]. destruct (faults (UserSave i)); [done|]. simpl.
  rewrite <-(list_insert_id all i u Hi). apply Forall2_insert; [done|by right].
Qed.

Lemma assign_rows (all : list User) (i : nat) (u : User) (w : World) :
  all !! i = Some u →
  Forall2 (row_kept (now env)) all (users w) →
  (assign i (reset_row (now env) u) w).1 = Normal tt
  ∧ Forall2 (row_kept (now env)) all (users (assign i (reset_row (now env) u) w).2).
Proof.
  intros Hi Hr. unfold assign. simpl. destruct (is_stored_record u); [|done].
  simpl. split; [done|].
  rewrite <-(list_insert_id all i u Hi). apply Forall2_insert; [done|by right].
Qed.

Lemma update_each_rows (all pre us : list User) (i n : nat) (w : World) :
  all = pre ++ us → length pre = i →
  Forall2 (row_kept (now env)) all (users w) →
  Forall2 (row_kept (now env)) all (users (update_each env faults us i n w).2).
Proof.
  revert pre i n w. induction us as [|u rest IH]; intros pre i n w Hall Hlen Hr; [done|].
  assert (Hi : all !! i = Some u)
    by (rewrite Hall, <-Hlen; apply list_lookup_middle; done).
  assert (Hnext : all = (pre ++ [u]) ++ rest) by by rewrite <-(assoc_L (++)).
  assert (Hlen' : length (pre ++ [u]) = S i) by (rewrite length_app; simpl; lia).
  simpl.
  assert (Hassign : ∀ k : M World nat,
            (∀ w1, Forall2 (row_kept (now env)) all (users w1) →
                   Forall2 (row_kept (now env)) all (users (k w1).2)) →
            Forall2 (row_kept (now env)) all
              (users (bind (assign i (reset_row (now env) u)) (λ _, k) w).2)).
  { intros k Hk. unfold bind. destruct (assign_rows all i u w Hi Hr) as [Hn Hs].
    destruct (assign i (reset_row (now env) u) w) as [[[]| |e] w1];
      simpl in *; [|done..].
    by apply Hk. }
  assert (Hsave : ∀ m w1, Forall2 (row_kept (now env)) all (users w1) →
            Forall2 (row_kept (now env)) all
              (users (bind (user_save faults i (reset_row (now env) u))
                           (λ _, update_each env faults rest (S i) m) w1).2)).
  { intros m w1 Hr1. unfold bind. pose proof (user_save_rows all i u w1 Hi Hr1) as Hs.
    destruct (user_save faults i (reset_row (now env) u) w1) as [[[]| |e] w2];
      simpl in *; [|done..].
    by apply (IH (pre ++ [u])). }
  destruct (has_setDataValue u); [apply Hassign, Hsave|].
  destruct (has_requestsToday u); [|by apply (IH (pre ++ [u]))].
  apply Hassign. intros w1 Hr1.
  destruct (has_save u); [by apply Hsave|by apply (IH (pre ++ [u]))].
Qed.

(** The [catch] block leaves every row as it was or reset. *)
Lemma rows_kept_catch_block (e : Exn) :
  preserves (rows_kept (now env)) (catch_block env faults e).
Proof.
  intros w. unfold catch_block, try_catch, User_findAll, call, failed_call.
  cbv [bind log modify]. simpl.
  destruct (faults UserFindAll); simpl; [exact (rows_kept_refl _ w)|].
  match goal with |- context [update_each env faults ?us 0 0 ?w0] =>
    pose proof (update_each_rows us [] us 0 0 w0 eq_refl eq_refl (rows_kept_refl _ w0)) as H;
    destruct (update_each env faults us 0 0 w0) as [[m| |e'] w1]
  end; exact H.
Qed.

Lemma rows_either_kept (t : Z) (w w' : World) : rows_either t w w' → rows_kept t w w'.
Proof.
  unfold rows_either, rows_kept. intros [->| ->]; [apply rows_kept_refl|apply rows_kept_reset].
Qed.

Lemma users_finally_block (w : World) : users (finally_block env faults w).2 = users w.
Proof. by destruct (finally_block_spec env faults w) as (w' & -> & Hu & _). Qed.

(** The [try] block writes to the two keys of the job only. *)
Lemma other_keys_try_block : preserves other_keys_kept (try_block env faults).
Proof.
  unfold try_block, acquire_lock, bulk_reset.
  destruct (redis_client env);
    preserve other_keys_kept_refl other_keys_kept_trans other_keys_kept_event;
    try (by intros k).
  all: try (match goal with |- preserves _ (match ?x with _ => _ end) => destruct x end;
            preserve other_keys_kept_refl other_keys_kept_trans other_keys_kept_event).
  all: try (by intros k).
  - intros k Hk _. simpl. unfold set_nx_px. destruct (live _ _ _); simpl; [done|].
    by rewrite lookup_insert_ne.
  - intros k _ Hk. simpl. unfold set_plain. by rewrite lookup_insert_ne.
  - intros k _ Hk. simpl. unfold expire. destruct (live _ _ _); simpl; [|done].
    by rewrite lookup_insert_ne.
Qed.

Lemma other_keys_finally_block : preserves other_keys_kept (finally_block env faults).
Proof.
  intros w. destruct (finally_block_spec env faults w) as (w' & -> & _ & Hfin). simpl.
  destruct (redis_client env).
  - destruct Hfin as (thrown & _ & _ & Hs). intros k Hk _. rewrite Hs.
    destruct thrown; [done|].
    destruct (release_script_spec (now env) lockKey (lockValue env) (store w)) as [->|[-> _]];
      [done|by rewrite lookup_delete_ne].
  - destruct Hfin as [_ Hs]. intros k _ _. by rewrite Hs.
Qed.

End Whole.

(** *** Events a block may append *)

Section Appends.
Variable P : Event → Prop.

Lemma appends_ret {A} (a : A) : appends P (ret a : M World A).
Proof. intros w. exists []. simpl. by rewrite app_nil_r. Qed.

Lemma appends_early_return {A} : appends P (early_return : M World A).
Proof. intros w. exists []. simpl. by rewrite app_nil_r. Qed.

Lemma appends_log (l : LogLevel) (msg : string) : P (ELog l msg) → appends P (log l msg).
Proof. intros Hp w. exists [ELog l msg]. simpl. split; [done|by constructor]. Qed.

Lemma appends_failed_call {A} (op : Op) (e : Exn) :
  P (ECall op (Some e)) → appends P (failed_call op e : M World A).
Proof. intros Hp w. exists [ECall op (Some e)]. simpl. split; [done|by constructor]. Qed.

Lemma appends_call {A} (faults : Faults) (op : Op) (effect : World → A * World) :
  (∀ r, P (ECall op r)) → (∀ w, trace (effect w).2 = trace w) →
  appends P (call faults op effect).
Proof.
  intros Hp Heff w. unfold call. destruct (faults op) as [e|].
  - by apply appends_failed_call.
  - specialize (Heff w). destruct (effect w) as [a w']. simpl in *.
    exists [ECall op None]. rewrite Heff. split; [done|by constructor].
Qed.

Lemma appends_bind {A B} (m : M World A) (k : A → M World B) :
  appends P m → (∀ a, appends P (k a)) → appends P (bind m k).
Proof.
  intros Hm Hk w. unfold bind. destruct (Hm w) as (n1 & Ht1 & H1).
  destruct (m w) as [[a| |e] w1]; simpl in *; [|by exists n1..].
  destruct (Hk a w1) as (n2 & Ht2 & H2).
  exists (n1 ++ n2). rewrite Ht2, Ht1, <-(assoc_L (++)). split; [done|].
  by apply Forall_app.
Qed.

Lemma appends_when (c : bool) (m : M World unit) : appends P m → appends P (when c m).
Proof. intros Hm. destruct c; [done|apply appends_ret]. Qed.

Lemma appends_try_catch (body : M World unit) (handler : Exn → M World unit) :
  appends P body → (∀ e, appends P (handler e)) → appends P (try_catch body handler).
Proof.
  intros Hb Hh w. unfold try_catch. destruct (Hb w) as (n1 & Ht1 & H1).
  destruct (body w) as [[a| |e] w1]; simpl in *; [by exists n1..|].
  destruct (Hh e w1) as (n2 & Ht2 & H2).
  exists (n1 ++ n2). rewrite Ht2, Ht1, <-(assoc_L (++)). split; [done|].
  by apply Forall_app.
Qed.

End Appends.

(** Walk through a block, one statement at a time. *)
Ltac append_steps :=
  repeat first
    [ apply appends_bind; [|intros ?]
    | apply appends_log
    | apply appends_ret
    | apply appends_early_return
    | apply appends_when
    | apply appends_try_catch; [|intros ?]
    | apply appends_failed_call
    | apply appends_call; [intros ?|intros ?] ].

Section Quiet.
Variable env : Env.
Variable faults : Faults.

Lemma no_redis_assign (i : nat) (u : User) : appends no_redis (assign i u).
Proof.
  unfold assign. destruct (is_stored_record u); [|apply appends_ret].
  intros w. exists []. simpl. by rewrite app_nil_r.
Qed.

Lemma no_redis_user_save (i : nat) (u : User) : appends no_redis (user_save faults i u).
Proof. unfold user_save. destruct (has_save u); append_steps; done. Qed.

Lemma no_redis_update_each (us : list User) (i n : nat) :
  appends no_redis (update_each env faults us i n).
Proof.
  revert i n. induction us as [|u rest IH]; intros i n; simpl.
  - apply appends_ret.
  - destruct (has_setDataValue u); [|destruct (has_requestsToday u)]; try apply IH.
    all: apply appends_bind; [apply no_redis_assign|intros _].
    2: destruct (has_save u); [|apply IH].
    all: apply appends_bind; [apply no_redis_user_save|intros _; apply IH].
Qed.

Lemma no_redis_catch_block (e : Exn) : appends no_redis (catch_block env faults e).
Proof.
  unfold catch_block, User_findAll. append_steps; try done.
  apply no_redis_update_each.
Qed.

Lemma no_redis_try_block :
  redis_client env = false → appends no_redis (try_block env faults).
Proof.
  intros Hc. unfold try_block, acquire_lock, bulk_reset, User_update, User_count, User_findOne.
  rewrite Hc. append_steps; try done.
  match goal with |- appends _ (match ?x with _ => _ end) => destruct x end;
    append_steps; done.
Qed.

Lemma same_store_try_block_no_client :
  redis_client env = false → preserves same_store (try_block env faults).
Proof.
  intros Hc. unfold try_block, acquire_lock, bulk_reset. rewrite Hc.
  preserve same_store_refl same_store_trans same_store_event; try done.
  match goal with |- preserves _ (match ?x with _ => _ end) => destruct x end;
    preserve same_store_refl same_store_trans same_store_event.
Qed.


(** A run that takes the lock and whose main calls all succeed. *)
Lemma clean_run (w : World) :
  redis_client env = true →
  live (now env) (store w) lockKey = None →
  main_calls_succeed env faults →
  users (after env faults w) = map (reset_row (now env)) (users w)
  ∧ (faults (RedisEval [lockKey] [lockValue env]) = None →
     store (after env faults w) !! lockKey = None)
  ∧ (∀ e, faults (RedisEval [lockKey] [lockValue env]) = Some e →
     store (after env faults w) !! lockKey
     = Some {| value := lockValue env; expireAt := Some (now env + 300000)%Z |}).
Proof.
  intros Hc Hl Hmain. pose proof Hmain as (H1 & H2 & H3 & H4 & H5 & H6).
  pose proof (guarded_free_lock env faults w Hc Hl H1) as Hlock.
  unfold after. rewrite resetDailyRequests_state.
  destruct (acquire_lock_free env faults w Hc Hl H1) as (w1 & Ha & Hs1 & Hu1 & Ht1).
  destruct (bulk_reset_ok env faults w1 H2 H3 H4 H5 H6)
    as (w2 & m1 & m2 & ver & Hb & Hu2 & _).
  assert (Hg : guarded env faults w = (Normal tt, w2)).
  { unfold guarded, try_catch, try_block, bind. by rewrite Ha, Hb. }
  rewrite Hg in *. simpl in *.
  destruct (finally_block_spec env faults w2) as (w3 & -> & Hu3 & Hfin).
  rewrite Hc in Hfin. destruct Hfin as (thrown & _ & Hthrown & Hs3). simpl.
  split; [congruence|]. split.
  - intros He. rewrite Hs3, Hthrown, He. unfold release_script, live. rewrite Hlock. simpl.
    rewrite bool_decide_eq_false_2 by lia.
    rewrite decide_True by done. simpl. apply lookup_delete_eq.
  - intros e He. by rewrite Hs3, Hthrown, He.
Qed.

End Quiet.

(** *** Properties of the job beyond the lock *)

(** X1. Whenever the [try] block throws and the alternate method meets
    model instances, a working [findAll] and working saves, the run
    resolves with every row reset, as the bulk update would have left
    them, and reports the number of rows. *)
Theorem fallback_resets_every_row (env : Env) (faults : Faults) (w : World) (e : Exn) :
  (try_block env faults w).1 = Throw e →
  faults UserFindAll = None →
  (∀ j, faults (UserSave j) = None) →
  Forall model_instance (users w) →
  (resetDailyRequests env faults w).1 = Resolved
  ∧ users (after env faults w) = map (reset_row (now env)) (users w)
  ∧ ELog INFO ("Daily recovery method successful - reset "
               +:+ pretty (length (users w)) +:+ " users individually")
    ∈ trace (after env faults w).
Proof.
  intros Hthrow Hfa Hsv Hm. split; [apply resetDailyRequests_resolves|].
  unfold after. rewrite resetDailyRequests_state.
  pose proof (rows_either_try_block env faults w) as Hrows.
  unfold guarded, try_catch.
  destruct (try_block env faults w) as [c w1]. simpl in *. subst c.
  assert (Hm1 : Forall model_instance (users w1))
    by (destruct Hrows as [->| ->]; [done|by apply model_instance_reset]).
  assert (Hlen : length (users w1) = length (users w))
    by (destruct Hrows as [->| ->]; [done|by rewrite length_map]).
  destruct (catch_block_recovers env faults e w1 Hfa Hsv Hm1) as (w2 & -> & Hu & _ & Hlast).
  simpl. rewrite users_finally_block, Hu. split.
  - destruct Hrows as [->| ->]; [done|apply reset_rows_idemp].
  - destruct (handled_finally_block env faults w2) as (n & Ht & _). rewrite Ht.
    apply elem_of_app. left. rewrite <-Hlen.
    apply last_Some in Hlast as (pre & ->). apply elem_of_app. right.
    by apply list_elem_of_singleton.
Qed.

Lemma fallback_resets_every_row_witness :
  users (after env_a bulk_update_fails sample_world)
  = map (reset_row 1000) (users sample_world).
Proof.
  destruct (fallback_resets_every_row env_a bulk_update_fails sample_world
              (Err "SequelizeDatabaseError")) as (_ & H & _).
  - vm_compute. reflexivity.
  - reflexivity.
  - intros j. reflexivity.
  - repeat constructor.
  - exact H.
Defined.

(** X2. When the [try] block throws and, in the alternate method, the
    save of row [k] is the first to fail, the run resolves with rows
    [0..k-1] reset and row [k] and all later rows as the [try] block
    left them, and logs the second failure. Row [k] is left as it was
    when its object is a copy of the row, which only [save] writes
    back; when the object is the stored record itself, its fields were
    set before the save and the row is reset too. *)
Theorem failed_save_leaves_a_reset_prefix (env : Env) (faults : Faults) (w w1 : World)
    (e e' : Exn) (k : nat) :
  try_block env faults w = (Throw e, w1) →
  faults UserFindAll = None →
  Forall model_instance (users w1) →
  k < length (users w1) →
  (∀ j, j < k → faults (UserSave j) = None) →
  faults (UserSave k) = Some e' →
  (resetDailyRequests env faults w).1 = Resolved
  ∧ users (after env faults w)
    = map (reset_row (now env)) (take (reset_reach (users w1) k) (users w1))
      ++ drop (reset_reach (users w1) k) (users w1)
  ∧ ELog ERROR ("Daily recovery attempt also failed: " +:+ exn_msg e')
    ∈ trace (after env faults w).
Proof.
  intros Htry Hfa Hm Hk Hok Hbad. split; [apply resetDailyRequests_resolves|].
  unfold after. rewrite resetDailyRequests_state.
  unfold guarded, try_catch. rewrite Htry.
  destruct (catch_block_stops env faults e e' k w1 Hfa Hm Hk Hok Hbad)
    as (w2 & -> & Hu & _ & Hlast).
  simpl. rewrite users_finally_block. split; [done|].
  destruct (handled_finally_block env faults w2) as (n & Ht & _). rewrite Ht.
  apply elem_of_app. left.
  apply last_Some in Hlast as (pre & ->). apply elem_of_app. right.
  by apply list_elem_of_singleton.
Qed.

Lemma failed_save_leaves_a_reset_prefix_witness :
  users (after env_a (λ op, match op with
                            | UserUpdate => Some (Err "SequelizeDatabaseError")
                            | UserSave 1 => Some (Err "deadlock")
                            | _ => None
                            end) sample_world)
  = [reset_row 1000 (sample_user 1 7); sample_user 2 3].
Proof.
  set (f := λ op, match op with
                  | UserUpdate => Some (Err "SequelizeDatabaseError")
                  | UserSave 1 => Some (Err "deadlock")
                  | _ => None
                  end).
  destruct (failed_save_leaves_a_reset_prefix env_a f sample_world
              (try_block env_a f sample_world).2
              (Err "SequelizeDatabaseError") (Err "deadlock") 1) as (_ & H & _).
  - vm_compute. reflexivity.
  - reflexivity.
  - vm_compute. repeat constructor.
  - vm_compute. lia.
  - intros j Hj. destruct j; [reflexivity|lia].
  - reflexivity.
  - rewrite H. vm_compute. reflexivity.
Defined.

(** X3. Whatever fails, a run neither adds nor removes nor re-identifies
    rows: row by row, the table it leaves holds the row it found or that
    row reset (counter 0, date of the run), and nothing else of a row
    changes. *)
Theorem run_keeps_or_resets_each_row (env : Env) (faults : Faults) (w : World) :
  Forall2 (row_kept (now env)) (users w) (users (after env faults w))
  ∧ length (users (after env faults w)) = length (users w)
  ∧ map userId (users (after env faults w)) = map userId (users w).
Proof.
  assert (H : rows_kept (now env) w (after env faults w)).
  { apply (run_preserves env faults (rows_kept (now env)) (rows_kept_trans (now env))).
    - intros w0. apply rows_either_kept, rows_either_try_block.
    - apply rows_kept_catch_block.
    - intros w0. unfold rows_kept. rewrite users_finally_block.
      exact (rows_kept_refl (now env) w0). }
  unfold rows_kept in H. split; [done|]. split; [symmetry; by eapply Forall2_length|].
  induction H as [|u u' us us' [->| ->] _ IH]; simpl; by rewrite ?IH.
Qed.

(** X4. Whatever fails, a run changes no key of the shared store other
    than its lock and its completion stamp. *)
Theorem run_writes_its_two_keys_only (env : Env) (faults : Faults) (w : World) (k : string) :
  k ≠ lockKey → k ≠ "last_daily_reset" →
  store (after env faults w) !! k = store w !! k.
Proof.
  revert k. change (other_keys_kept w (after env faults w)).
  apply (run_preserves env faults other_keys_kept other_keys_kept_trans).
  - apply other_keys_try_block.
  - intros e w0. apply same_store_other_keys, same_store_catch_block.
  - apply other_keys_finally_block.
Qed.

Lemma run_writes_its_two_keys_only_witness :
  store (after env_b no_faults
           {| store := {[ "sessions" := lock_of_a ]}; users := []; trace := [] |})
    !! "sessions" = Some lock_of_a.
Proof.
  rewrite (run_writes_its_two_keys_only env_b no_faults) by (vm_compute; discriminate).
  reflexivity.
Defined.

(** X5. Without a Redis client a run sends no command to Redis and
    leaves the store untouched, whatever else fails. *)
Theorem no_client_no_redis_command (env : Env) (faults : Faults) (w : World) :
  redis_client env = false →
  store (after env faults w) = store w
  ∧ ∃ new, trace (after env faults w) = trace w ++ new
           ∧ Forall (λ e, is_redis_call e = false) new.
Proof.
  intros Hc. unfold after. rewrite resetDailyRequests_state.
  destruct (finally_block_spec env faults (guarded env faults w).2) as (w2 & -> & _ & Hfin).
  rewrite Hc in Hfin. destruct Hfin as [Ht Hs]. simpl. rewrite Ht, Hs. split.
  - apply (preserves_try_catch same_store same_store_trans).
    + by apply same_store_try_block_no_client.
    + apply same_store_catch_block.
  - apply (appends_try_catch no_redis).
    + by apply no_redis_try_block.
    + apply no_redis_catch_block.
Qed.

Lemma no_client_no_redis_command_witness :
  store (after env_single bulk_update_fails world_locked_by_a) = store world_locked_by_a.
Proof.
  destruct (no_client_no_redis_command env_single bulk_update_fails world_locked_by_a)
    as [H _]; [reflexivity|exact H].
Defined.



(** X7. When the lock attempt itself throws, the alternate method runs
    without the lock: with a working [findAll] and working saves on
    model instances every row is reset, even while another instance
    holds the lock, and that lock is left in place. *)
Theorem lock_error_resets_without_the_lock
    (env : Env) (faults : Faults) (w : World) (held : RedisEntry) (e : Exn) :
  redis_client env = true →
  live (now env) (store w) lockKey = Some held →
  value held ≠ lockValue env →
  faults (RedisSetNX lockKey (lockValue env) 300000) = Some e →
  faults UserFindAll = None →
  (∀ j, faults (UserSave j) = None) →
  Forall model_instance (users w) →
  users (after env faults w) = map (reset_row (now env)) (users w)
  ∧ store (after env faults w) = store w
  ∧ ELog ERROR ("Error resetting daily request counts: " +:+ exn_msg e)
    ∈ trace (after env faults w).
Proof.
  intros Hc Hl Hne Hf Hfa Hsv Hm. unfold after. rewrite resetDailyRequests_state.
  assert (Htry : try_block env faults w
                 = (Throw e, add_event (lock_call env (Some e)) w)).
  { unfold try_block, acquire_lock, bind, redis_set_nx, call.
    change (lockTTL * 1000)%Z with 300000%Z. by rewrite Hc, Hf. }
  unfold guarded, try_catch. rewrite Htry.
  set (w0 := add_event (lock_call env (Some e)) w).
  destruct (catch_block_recovers env faults e w0 Hfa Hsv Hm) as (w2 & Hcb & Hu & Hs & _).
  destruct (catch_block_starts env faults e w0) as (rest & Hstart).
  rewrite Hcb in *. simpl in *.
  destruct (finally_block_spec env faults w2) as (w3 & -> & Hu3 & Hfin).
  rewrite Hc in Hfin. destruct Hfin as (thrown & Ht3 & _ & Hs3). simpl.
  split; [congruence|]. split.
  - rewrite Hs3. destruct thrown; [done|].
    rewrite (release_script_other (now env) lockKey (lockValue env) (store w2) held);
      [done| |done].
    rewrite Hs. by apply live_lookup in Hl.
  - rewrite Ht3, Hstart. set_solver.
Qed.

Lemma lock_error_resets_without_the_lock_witness :
  users (after env_b (λ op, match op with
                            | RedisSetNX _ _ _ => Some (Err "ECONNREFUSED")
                            | _ => None
                            end) world_locked_by_a)
  = map (reset_row 61000) (users world_locked_by_a).
Proof.
  destruct (lock_error_resets_without_the_lock env_b
              (λ op, match op with
                     | RedisSetNX _ _ _ => Some (Err "ECONNREFUSED")
                     | _ => None
                     end) world_locked_by_a lock_of_a (Err "ECONNREFUSED"))
    as [H _].
  - reflexivity.
  - vm_compute. reflexivity.
  - vm_compute. discriminate.
  - reflexivity.
  - reflexivity.
  - intros j. reflexivity.
  - repeat constructor.
  - exact H.
Defined.

(** X8. Two clean runs in a row, by the same or by different instances,
    leave the rows as one reset at the clock of the second: the first
    releases the lock, the second finds it free and takes it, and
    resetting a reset row only moves its date. *)
Theorem second_clean_run_only_moves_the_date
    (env1 env2 : Env) (faults1 faults2 : Faults) (w : World) :
  redis_client env1 = true → redis_client env2 = true →
  live (now env1) (store w) lockKey = None →
  main_calls_succeed env1 faults1 →
  faults1 (RedisEval [lockKey] [lockValue env1]) = None →
  main_calls_succeed env2 faults2 →
  live (now env2) (store (after env1 faults1 w)) lockKey = None
  ∧ users (after env2 faults2 (after env1 faults1 w))
    = map (reset_row (now env2)) (users w).
Proof.
  intros Hc1 Hc2 Hl Hm1 He Hm2.
  destruct (clean_run env1 faults1 w Hc1 Hl Hm1) as (Hu1 & Hfree & _).
  specialize (Hfree He).
  assert (Hl2 : live (now env2) (store (after env1 faults1 w)) lockKey = None)
    by (unfold live; by rewrite Hfree).
  split; [done|].
  destruct (clean_run env2 faults2 _ Hc2 Hl2 Hm2) as (Hu2 & _).
  rewrite Hu2, Hu1, map_map. by apply map_ext.
Qed.

Lemma second_clean_run_only_moves_the_date_witness :
  users (after env_b no_faults (after env_a no_faults sample_world))
  = map (reset_row 61000) (users sample_world).
Proof.
  destruct (second_clean_run_only_moves_the_date env_a env_b no_faults no_faults sample_world)
    as [_ H]; [reflexivity|reflexivity|vm_compute; reflexivity|repeat split|reflexivity
              |repeat split|exact H].
Defined.

Lemma row_written (pre rest : list User) (u u' : User) (i : nat) :
  length pre = i → <[i := u']> (pre ++ u :: rest) = pre ++ u' :: rest.
Proof. intros <-. by rewrite <-(Nat.add_0_r (length pre)), insert_app_r. Qed.

Lemma update_each_mixed (env : Env) (faults : Faults) (pre us : list User) (i n : nat)
    (w : World) :
  Forall saveable us →
  (∀ j, faults (UserSave j) = None) →
  users w = pre ++ us → length pre = i →
  ∃ w', update_each env faults us i n w
        = (Normal (n + length (filter (λ u, persisted u = true) us)), w')
    ∧ users w' = pre ++ map (fallback_row (now env)) us.
Proof.
  intros Hs Hf. revert pre i n w.
  induction Hs as [|u rest Hu Hrest IH]; intros pre i n w Hw Hlen.
  - exists w. simpl. rewrite Nat.add_0_r. by rewrite Hw.
  - assert (Hstep : ∀ m w1, users w1 = pre ++ fallback_row (now env) u :: rest →
      ∃ w', update_each env faults rest (S i) m w1
            = (Normal (m + length (filter (λ u, persisted u = true) rest)), w')
        ∧ users w' = pre ++ map (fallback_row (now env)) (u :: rest)).
    { intros m w1 Hw1.
      destruct (IH (pre ++ [fallback_row (now env) u]) (S i) m w1) as (w' & Hrun & Hu').
      - by rewrite Hw1, <-(assoc_L (++)).
      - rewrite length_app. simpl. lia.
      - exists w'. split; [done|]. by rewrite Hu', <-(assoc_L (++)). }
    assert (Hp : persisted u = has_setDataValue u || has_requestsToday u && has_save u)
      by done.
    rewrite filter_cons, Hp. clear Hp. unfold saveable in Hu. simpl.
    unfold bind, assign, user_save, call. simpl.
    destruct (has_setDataValue u) eqn:Hsd, (has_requestsToday u) eqn:Hrq,
      (has_save u) eqn:Hsv, (is_stored_record u) eqn:Hst;
      simpl; rewrite ?Hf; simpl; try (specialize (Hu eq_refl); congruence).
    all: rewrite ?decide_True by done; rewrite ?decide_False by done; simpl.
    all: match goal with
         | |- ∃ w', update_each _ _ _ _ ?m ?w1 = _ ∧ _ =>
             destruct (Hstep m w1) as (w' & Hrun & Hu');
               [simpl; rewrite Hw; rewrite ?row_written by done;
                unfold fallback_row, persisted, assigned;
                rewrite Hsd, Hrq, Hsv, Hst; done
               |exists w'; split; [rewrite Hrun; do 2 f_equal; lia|exact Hu']]
         end.
Qed.

(** X18. The alternate method saves, and counts, only the objects that
    have [setDataValue], or a [requestsToday] property and [save]; but
    it assigns the two fields to every object with a [requestsToday]
    property before it looks for [save]. When the [try] block throws
    and [findAll] and the saves work, the rows of the saved objects are
    reset; the row of an object with [requestsToday] and no [save] is
    reset as well when the object is the stored record itself, and left
    as it was when the object is a copy; the rows of objects with
    neither are left as they were; and the closing line reports the
    number of objects saved, be it zero. *)
Theorem fallback_skips_objects_it_cannot_save
    (env : Env) (faults : Faults) (w w1 : World) (e : Exn) :
  try_block env faults w = (Throw e, w1) →
  faults UserFindAll = None →
  (∀ j, faults (UserSave j) = None) →
  Forall saveable (users w1) →
  users (after env faults w) = map (fallback_row (now env)) (users w1)
  ∧ ELog INFO ("Daily recovery method successful - reset "
               +:+ pretty (length (filter (λ u, persisted u = true) (users w1)))
               +:+ " users individually")
    ∈ trace (after env faults w).
Proof.
  intros Htry Hfa Hsv Hshape. unfold after. rewrite resetDailyRequests_state.
  unfold guarded, try_catch. rewrite Htry.
  assert (Hcb : ∃ w2 pre, catch_block env faults e w1 = (Normal tt, w2)
            ∧ users w2 = map (fallback_row (now env)) (users w1)
            ∧ trace w2 = pre ++ [ELog INFO ("Daily recovery method successful - reset "
                 +:+ pretty (length (filter (λ u, persisted u = true) (users w1)))
                 +:+ " users individually")]).
  { unfold catch_block, try_catch, User_findAll, call. cbv [bind log modify]. simpl.
    rewrite Hfa. simpl.
    match goal with |- context [update_each env faults ?us 0 0 ?w0] =>
      destruct (update_each_mixed env faults [] us 0 0 w0 Hshape Hsv eq_refl eq_refl)
        as (w2 & -> & Hu)
    end.
    simpl in *. by do 2 eexists. }
  destruct Hcb as (w2 & pre & -> & Hu & Ht). simpl.
  rewrite users_finally_block. split; [done|].
  destruct (handled_finally_block env faults w2) as (n & Htf & _). rewrite Htf, Ht.
  set_solver.
Qed.

Lemma fallback_skips_objects_it_cannot_save_witness :
  let record := {| userId := 3; requestsToday := 9; lastRequestDate := 0;
                   has_setDataValue := false; has_requestsToday := true;
                   has_save := false; is_stored_record := true |} in
  let copy := {| userId := 4; requestsToday := 5; lastRequestDate := 0;
                 has_setDataValue := false; has_requestsToday := true;
                 has_save := false; is_stored_record := false |} in
  users (after env_single bulk_update_fails
           {| store := ∅; users := [sample_user 1 7; record; copy]; trace := [] |})
  = [reset_row 1000 (sample_user 1 7); reset_row 1000 record; copy].
Proof.
  intros record copy.
  set (w := {| store := ∅; users := [sample_user 1 7; record; copy]; trace := [] |}).
  destruct (fallback_skips_objects_it_cannot_save env_single bulk_update_fails w
              (try_block env_single bulk_update_fails w).2
              (Err "SequelizeDatabaseError")) as [H _].
  - vm_compute. reflexivity.
  - reflexivity.
  - intros j. reflexivity.
  - vm_compute. repeat constructor; discriminate.
  - rewrite H. vm_compute. reflexivity.
Defined.

End DailyResetMore.

(** ** The telemetry module: sequences of calls *)

Module LoggerMore.
Import Logger LoggerMoreTerms LoggerFacts.

Lemma log_all_snoc (lv : option PinoLevel) (calls : list (LogLevel * string))
    (c : LogLevel * string) (st : LogState) :
  log_all lv (calls ++ [c]) st = log lv c.1 c.2 (log_all lv calls st).
Proof. unfold log_all. by rewrite foldl_snoc. Qed.

Lemma calls_at_total (calls : list (LogLevel * string)) :
  calls_at DEBUG calls + calls_at INFO calls + calls_at WARN calls + calls_at ERROR calls
  = length calls.
Proof.
  unfold calls_at. induction calls as [|[l0 m] calls IH]; [done|].
  rewrite !filter_cons. simpl. destruct l0; repeat case_decide; try done; simpl; lia.
Qed.

(** X9. After any sequence of calls of the four methods, the series of
    each level stands at its earlier value plus the number of calls made
    at that level, whatever [LOG_LEVEL] is; so the four series together
    grew by the number of calls. *)
Theorem counter_counts_calls_per_level (LOG_LEVEL : option PinoLevel)
    (calls : list (LogLevel * string)) (st : LogState) :
  (∀ l, count (log_all LOG_LEVEL calls st) l = count st l + calls_at l calls)
  ∧ count (log_all LOG_LEVEL calls st) DEBUG + count (log_all LOG_LEVEL calls st) INFO
    + count (log_all LOG_LEVEL calls st) WARN + count (log_all LOG_LEVEL calls st) ERROR
    = count st DEBUG + count st INFO + count st WARN + count st ERROR + length calls.
Proof.
  assert (H : ∀ l, count (log_all LOG_LEVEL calls st) l = count st l + calls_at l calls).
  { intros l. induction calls as [|[l0 m] calls IH] using rev_ind.
    - unfold calls_at. simpl. lia.
    - rewrite log_all_snoc, log_unfold. simpl. unfold count at 1.
      rewrite counts_logger_write. fold (count (inc l0 (log_all LOG_LEVEL calls st)) l).
      rewrite count_inc, IH. unfold calls_at. rewrite filter_app, length_app.
      rewrite filter_cons, filter_nil. simpl.
      destruct (decide (l = l0)) as [->|Hne].
      + rewrite decide_True by done. simpl. lia.
      + rewrite decide_False by congruence. simpl. lia. }
  split; [done|]. rewrite !H.
  pose proof (calls_at_total calls) as Hsum.
  lia.
Qed.

(** X10. After any sequence of calls, the lines written are the earlier
    ones followed by the calls whose level is enabled, in the order of
    the calls: no line is reordered, repeated or dropped for another
    reason than its level. *)
Theorem output_is_the_enabled_calls_in_order (LOG_LEVEL : option PinoLevel)
    (calls : list (LogLevel * string)) (st : LogState) :
  output (log_all LOG_LEVEL calls st) = output st ++ written LOG_LEVEL calls.
Proof.
  induction calls as [|[l0 m] calls IH] using rev_ind.
  - unfold written. simpl. by rewrite app_nil_r.
  - rewrite log_all_snoc, log_unfold, output_logger_write. simpl.
    unfold written in *. rewrite filter_app, filter_cons, filter_nil. simpl.
    change (output (inc l0 (log_all LOG_LEVEL calls st)))
      with (output (log_all LOG_LEVEL calls st)).
    rewrite IH. destruct (enabled LOG_LEVEL l0) eqn:E.
    + rewrite decide_True by done. by rewrite <-(assoc_L (++)).
    + rewrite decide_False by done. by rewrite app_nil_r.
Qed.

End LoggerMore.

(** ** The life of a connection after its setup *)

Module WsLifecycleFacts.
Import Eff WsRoutes WsLifecycle WsRoutesFacts WsSamples.

(** What the setup leaves behind: nothing at all, or the ping timer and
    the three listeners of a registered client. *)
Lemma connection_shape (c : Conn) :
  (timer_set (connection c).2 = false ∧ ∀ event, listeners event (connection c).2 = [])
  ∨ (∃ id token client,
       addClient c id token = inr (Some client)
       ∧ (connection c).2
         = [EValidate id token; EAddClient id token;
            ESetInterval (WEBSOCKET_PING_INTERVAL_MS c);
            EOn "close" [ClearInterval; RemoveClient id];
            EOn "pong" [UpdateLastSeen];
            EOn "error" [ClearInterval; LogError id; RemoveClient id]]).
Proof.
  rewrite connection_unfold. unfold setup, parse_url.
  cbv [bind validate add_client ws_close emit log modify throw ret early_return].
  destruct (url_params c) as [ps|]; simpl; [|by left].
  destruct (truthy (searchParams_get "id" ps)) as [id|];
    destruct (truthy (searchParams_get "token" ps)) as [token|]; simpl;
    try (destruct (ws_close_fault c 1008); simpl; by left).
  destruct (validateHeadlessSession c id token) as [e|[|]]; simpl; [by left| |].
  - destruct (addClient c id token) as [e|[client|]] eqn:Ha; simpl; [by left| |by left].
    right. by exists id, token, client.
  - destruct (ws_close_fault c 1008); simpl; by left.
Qed.

Lemma lifetime_app (c : Conn) (l1 l2 : list Signal) :
  lifetime c (l1 ++ l2) = foldl (deliver (connection c).2) (lifetime c l1) l2.
Proof. unfold lifetime. apply foldl_app. Qed.

Lemma pings_did (e : Effect) (st : Live) :
  pings (did e st) = pings st + (if is_ping e then 1 else 0).
Proof.
  unfold pings, did. simpl. rewrite filter_app, length_app, filter_cons, filter_nil.
  destruct e; simpl; done.
Qed.

(** No statement of a listener arms the timer or sends a ping. *)
Lemma run_action_quiet (error : string) (st : Live) (a : Action) :
  pings (run_action error st a) = pings st
  ∧ (armed st = false → armed (run_action error st a) = false).
Proof.
  destruct a; simpl; rewrite ?pings_did; simpl; try (split; [lia|done]).
  split; [|done]. unfold pings. simpl.
  rewrite filter_app, length_app, filter_cons, filter_nil. simpl. lia.
Qed.

Lemma listener_quiet (error : string) (l : list Action) (st : Live) :
  pings (foldl (run_action error) st l) = pings st
  ∧ (armed st = false → armed (foldl (run_action error) st l) = false).
Proof.
  revert st. induction l as [|a l IH]; intros st; [done|]. simpl.
  destruct (IH (run_action error st a)) as [Hp Ha].
  destruct (run_action_quiet error st a) as [Hp' Ha'].
  split; [congruence|auto].
Qed.

Lemma listeners_quiet (error : string) (ls : list (list Action)) (st : Live) :
  pings (foldl (foldl (run_action error)) st ls) = pings st
  ∧ (armed st = false → armed (foldl (foldl (run_action error)) st ls) = false).
Proof.
  revert st. induction ls as [|l ls IH]; intros st; [done|]. simpl.
  destruct (IH (foldl (run_action error) st l)) as [Hp Ha].
  destruct (listener_quiet error l st) as [Hp' Ha'].
  split; [congruence|auto].
Qed.

(** With the timer cleared, nothing sends a ping and nothing arms the
    timer again. *)
Lemma cleared_stays_quiet (t : list Event) (sigs : list Signal) (st : Live) :
  armed st = false →
  armed (foldl (deliver t) st sigs) = false
  ∧ pings (foldl (deliver t) st sigs) = pings st.
Proof.
  revert st. induction sigs as [|s sigs IH]; intros st Ha; [done|]. simpl.
  assert (Hs : armed (deliver t st s) = false ∧ pings (deliver t st s) = pings st).
  { destruct s as [|rs|event error]; simpl.
    - by rewrite Ha.
    - done.
    - destruct (listeners_quiet error (listeners event t) st) as [Hp Hk]. auto. }
  destruct Hs as [Ha' Hp']. destruct (IH _ Ha') as [Ha'' Hp'']. split; [done|congruence].
Qed.

(** X11. Once the [close] or the [error] event of a socket has fired,
    its ping timer is cleared for good: whatever the runtime delivers
    afterwards (ticks included), no further ping is sent on that
    socket. *)
Theorem no_ping_after_close_or_error (c : Conn) (before later : list Signal)
    (event error : string) :
  event = "close" ∨ event = "error" →
  armed (lifetime c (before ++ [Fired event error])) = false
  ∧ pings (lifetime c (before ++ Fired event error :: later))
    = pings (lifetime c (before ++ [Fired event error])).
Proof.
  intros Hev.
  assert (Hcleared : armed (lifetime c (before ++ [Fired event error])) = false).
  { rewrite lifetime_app. destruct (connection_shape c) as [[Ht Hl]|Hreg].
    - cbn [foldl deliver]. rewrite Hl. cbn [foldl]. unfold lifetime.
      by apply (cleared_stays_quiet (connection c).2 before (start (connection c).2)).
    - destruct Hreg as (id & token & client & _ & Htr). rewrite Htr.
      destruct Hev as [-> | ->]; reflexivity. }
  split; [done|].
  replace (before ++ Fired event error :: later)
    with ((before ++ [Fired event error]) ++ later) by by rewrite <-(assoc_L (++)).
  rewrite (lifetime_app c (before ++ [Fired event error]) later).
  by apply cleared_stays_quiet.
Qed.

Lemma no_ping_after_close_or_error_witness :
  pings (lifetime conn_W1 [Tick; Fired "close" EmptyString; Tick; Tick]) = 1.
Proof.
  destruct (no_ping_after_close_or_error conn_W1 [Tick] [Tick; Tick] "close" EmptyString)
    as [_ H]; [by left|].
  simpl in H. rewrite H. reflexivity.
Defined.

Lemma removals_did (e : Effect) (st : Live) :
  removals (did e st)
  = removals st ++ match e with ClientRemoved id => [id] | _ => [] end.
Proof. unfold removals, did. simpl. rewrite omap_app. by destruct e. Qed.

Lemma removals_cleared (b : bool) (st : Live) :
  removals {| armed := b; readyState := readyState st;
              effects := effects st ++ [IntervalCleared] |}
  = removals st.
Proof. unfold removals. simpl. rewrite omap_app. simpl. by rewrite app_nil_r. Qed.

(** X12. For a registered client, every [close] and every [error] event
    of its socket hands its own id to [ClientManager.removeClient], once
    per event, and nothing else does: after any signals the ids handed
    over are that id, as many times as such events fired (twice when an
    error is followed by the close). *)
Theorem removeClient_once_per_close_or_error (c : Conn) (ps : list (string * string))
    (id token : string) (client : Client) (sigs : list Signal) :
  url_params c = Some ps →
  truthy (searchParams_get "id" ps) = Some id →
  truthy (searchParams_get "token" ps) = Some token →
  validateHeadlessSession c id token = inr true →
  addClient c id token = inr (Some client) →
  removals (lifetime c sigs)
  = replicate (length (filter (λ s, closing s = true) sigs)) id.
Proof.
  intros Hu Hi Ht Hv Ha.
  pose proof (setup_registered c ps id token client Hu Hi Ht Hv Ha) as Hreg.
  apply (f_equal snd) in Hreg. simpl in Hreg.
  induction sigs as [|s sigs IH] using rev_ind; [unfold lifetime; by rewrite Hreg|].
  rewrite lifetime_app, filter_app, length_app, replicate_add, <-IH.
  rewrite Hreg. clear IH. set (st := lifetime c sigs).
  destruct s as [|rs|event error]; simpl.
  - rewrite app_nil_r. destruct (armed st); [|done]. unfold ping_tick.
    destruct (readyState st); try done. by rewrite !removals_did, !app_nil_r.
  - by rewrite app_nil_r.
  - destruct (decide ("close" = event)) as [<-|Hc];
      [|destruct (decide ("pong" = event)) as [<-|Hp];
        [|destruct (decide ("error" = event)) as [<-|He]]]; simpl.
    + by rewrite removals_did, removals_cleared.
    + by rewrite removals_did, app_nil_r.
    + by rewrite !removals_did, removals_cleared, app_nil_r.
    + rewrite filter_cons, filter_nil, decide_False; [by rewrite app_nil_r|].
      simpl. rewrite bool_decide_eq_false_2; [done|]. by intros [->| ->].
Qed.

Lemma removeClient_once_per_close_or_error_witness :
  removals (lifetime conn_W1 [Tick; Fired "error" "ECONNRESET"; Fired "pong" EmptyString;
                              Fired "close" EmptyString])
  = ["W1"; "W1"].
Proof.
  rewrite (removeClient_once_per_close_or_error conn_W1 [("id", "W1"); ("token", "t")]
             "W1" "t" {| client_id := "W1"; client_token := "t" |});
    reflexivity.
Defined.

(** X13. A connection that was turned down (closed with 1008 or 1011,
    or for which the manager handed back no client) has no timer and no
    listener: whatever happens to its socket later, it sends no ping and
    hands no id to [ClientManager.removeClient]. *)
Theorem rejected_connection_is_inert (c : Conn) (sigs : list Signal) :
  closed_with 1008 (connection c).2 = true
  ∨ closed_with 1011 (connection c).2 = true
  ∨ (∀ id token, addClient c id token = inr None) →
  armed (lifetime c sigs) = false ∧ effects (lifetime c sigs) = [].
Proof.
  intros Hrej. destruct (connection_shape c) as [[Ht Hl]|Hreg].
  - unfold lifetime.
    assert (Hinv : ∀ st, armed st = false → effects st = [] →
              armed (foldl (deliver (connection c).2) st sigs) = false
              ∧ effects (foldl (deliver (connection c).2) st sigs) = []).
    { induction sigs as [|s sigs IH]; intros st Ha He; [done|]. simpl.
      apply IH; destruct s as [|rs|event error]; simpl; rewrite ?Ha, ?Hl; done. }
    by apply Hinv.
  - destruct Hreg as (id & token & client & Ha & Htr). rewrite Htr in Hrej.
    destruct Hrej as [H|[H|H]]; [discriminate H..|]. by rewrite H in Ha.
Qed.

Lemma rejected_connection_is_inert_witness :
  effects (lifetime conn_invalid [Tick; Fired "close" EmptyString]) = [].
Proof.
  destruct (rejected_connection_is_inert conn_invalid [Tick; Fired "close" EmptyString])
    as [_ H]; [left; reflexivity|exact H].
Defined.

(** X19. The setup never both arms the ping timer and closes the
    socket: a connection with a timer was validated and handed to
    [ClientManager.addClient], got its three listeners, and was sent no
    close code. *)
Theorem timer_only_for_accepted_connections (c : Conn) :
  timer_set (connection c).2 = true →
  closed_with 1008 (connection c).2 = false
  ∧ closed_with 1011 (connection c).2 = false
  ∧ called_validate (connection c).2 = true
  ∧ called_addClient (connection c).2 = true
  ∧ ∃ id, listeners "close" (connection c).2 = [[ClearInterval; RemoveClient id]]
          ∧ listeners "pong" (connection c).2 = [[UpdateLastSeen]]
          ∧ listeners "error" (connection c).2 = [[ClearInterval; LogError id; RemoveClient id]].
Proof.
  intros Ht. destruct (connection_shape c) as [[Hno _]|Hreg]; [congruence|].
  destruct Hreg as (id & token & client & _ & ->). repeat split. by exists id.
Qed.

Lemma timer_only_for_accepted_connections_witness :
  closed_with 1008 (connection conn_W1).2 = false.
Proof.
  destruct (timer_only_for_accepted_connections conn_W1) as [H _]; [reflexivity|exact H].
Defined.

End WsLifecycleFacts.

(** ** The entity router: its tables and its validator *)

Module EntityRoutesMore.
Import Eff EntityRoutes EntityRoutesMoreTerms EntitySamples.

(** X14. Every route that declares a parameter coming from the body has
    [express.json()] among its middleware, and the [GET] and [DELETE]
    routes declare none. *)
Theorem body_parameters_come_with_a_parser (validateScript : JSValue → bool) :
  Forall (λ r, (uses_body r = true → json_body r = true)
               ∧ (method r = GET ∨ method r = DELETE → uses_body r = false))
    (entityRouter validateScript).
Proof.
  repeat constructor; simpl; try done; intros [H|H]; discriminate H.
Qed.

(** X15. The nine routes have nine different paths and nine different
    envelope types, and no route declares a parameter name twice. *)
Theorem routes_and_parameters_are_distinct (validateScript : JSValue → bool) :
  NoDup (map path (entityRouter validateScript))
  ∧ NoDup (map (λ r, api_type (config r)) (entityRouter validateScript))
  ∧ Forall (λ r, NoDup (map name (all_params r))) (entityRouter validateScript).
Proof.
  split; [|split].
  - apply (bool_decide_unpack _). by vm_compute.
  - apply (bool_decide_unpack _). by vm_compute.
  - repeat constructor; apply (bool_decide_unpack _); by vm_compute.
Qed.

(** X16. On a macro whose [data] is missing, [undefined] or [null],
    [validateParams] of [/create] throws a [TypeError] at
    [params.data.command]: it neither accepts nor rejects, the denylist
    is not consulted and nothing is logged. *)
Theorem macro_without_data_throws (validateScript : JSValue → bool)
    (fields : list (string * JSValue)) (logs : list LogLine) :
  lookup_field "entityType" fields = Some (JSString "Macro") →
  lookup_field "data" fields = None
  ∨ lookup_field "data" fields = Some JSUndefined
  ∨ lookup_field "data" fields = Some JSNull →
  ∃ e, create_validateParams validateScript (JSObject fields) logs = (Throw e, logs).
Proof.
  intros Ht Hd. unfold create_validateParams. cbv [bind get_prop ret throw].
  rewrite Ht. simpl. destruct Hd as [->|[->| ->]]; simpl; by eexists.
Qed.

Lemma macro_without_data_throws_witness :
  ∃ e, create_validateParams refuses_eval
         (JSObject [("clientId", JSString "W1"); ("entityType", JSString "Macro");
                    ("data", JSNull)]) []
       = (Throw e, []).
Proof.
  apply macro_without_data_throws; [reflexivity|].
  right. right. reflexivity.
Defined.

(** X17. [validateParams] of [/create] logs exactly when it rejects:
    a rejection comes with one [warn] line that names the client, and
    an acceptance or a throw leaves the log as it was. It never changes
    what was logged before. *)
Theorem validateParams_logs_exactly_when_it_rejects (validateScript : JSValue → bool)
    (params : JSValue) (logs : list LogLine) :
  match create_validateParams validateScript params logs with
  | (Normal (Some rejection), logs') =>
      ∃ fields,
        params = JSObject fields
        ∧ logs' = logs ++ [(WARN, "Request for "
                                  +:+ to_string (default JSUndefined (lookup_field "clientId" fields))
                                  +:+ " contains forbidden patterns in script")]
        ∧ error rejection = "Script contains forbidden patterns"
  | (_, logs') => logs' = logs
  end.
Proof.
  unfold create_validateParams. cbv [bind get_prop ret throw log_warn modify].
  destruct params as [| | | | |fields]; simpl; try done.
  destruct (is_string _ "Macro"); [|done].
  destruct (default JSUndefined (lookup_field "data" fields)) as [| | | | |data]; simpl;
    try (destruct (validateScript _); simpl; [done|by exists fields]); done.
Qed.

End EntityRoutesMore.

(** ** The close path and the registry *)

Module ClosePathFacts.
Import WsRoutes WsLifecycle WsRoutesFacts WsLifecycleFacts WsSamples.
Import Registry RegistryTerms RegistryFacts ClosePath.





End ClosePathFacts.

(** ** The daily reset job: whose lock the release deletes *)

Module LockOwnership.
Import Eff DailyReset DailyResetTerms DailyResetFacts Samples LocalSamples.

(** The value under which a process without an allocation id takes the
    lock names the instant of the run and nothing else of the process. *)
Lemma lockValue_local (env : Env) :
  FLY_ALLOC_ID env = None → lockValue env = "local_" +:+ pretty (date_now env).
Proof. intros H. unfold lockValue, instance_name. by rewrite H. Qed.

(** A run that was refused the lock still sends the release script, and
    the script deletes the lock when its holder took it under the same
    value. *)
Lemma refused_run_releases_equal_value (env : Env) (faults : Faults) (w : World)
    (held : RedisEntry) :
  redis_client env = true →
  live (now env) (store w) lockKey = Some held →
  value held = lockValue env →
  faults (RedisSetNX lockKey (lockValue env) 300000) = None →
  faults (RedisEval [lockKey] [lockValue env]) = None →
  users (resetDailyRequests env faults w).2 = users w
  ∧ store (resetDailyRequests env faults w).2 = delete lockKey (store w).
Proof.
  intros Hc Hl Hv Hnx Hev.
  rewrite resetDailyRequests_state.
  unfold guarded, try_catch, try_block, acquire_lock. rewrite Hc.
  unfold redis_set_nx, call. cbv [bind]. change (lockTTL * 1000)%Z with 300000%Z.
  rewrite Hnx. unfold set_nx_px. rewrite Hl. simpl.
  unfold finally_block, when, try_catch, redis_eval_release, call. rewrite Hc.
  cbv [bind]. rewrite Hev. simpl. unfold release_script. simpl. rewrite Hl.
  by rewrite decide_True.
Qed.

(** C6, at the input where it fails: two processes without
    [FLY_ALLOC_ID] share the store and run the job at the same instant
    (1000), so both name their lock [local_1000]. The first has taken
    the lock and is still at work. The second is refused the lock, logs
    that another instance is running and touches no row; its [finally]
    block then sends the release script with its own value, which is
    the value stored, and the lock of the first process is deleted. *)
Theorem refused_run_deletes_the_lock_of_another_instance :
  let w := world_held_by_local in
  let r := resetDailyRequests env_local no_faults w in
  lockValue env_local = "local_1000"
  ∧ live 1000 (store w) lockKey = Some {| value := "local_1000"; expireAt := Some 301000%Z |}
  ∧ r.1 = Resolved
  ∧ trace r.2
    = [lock_call env_local None;
       ELog INFO "Daily reset already running on another instance - skipping";
       release_call env_local None;
       ELog INFO "Released daily reset lock"]
  ∧ users r.2 = users w
  ∧ store r.2 !! lockKey = None.
Proof. vm_compute. repeat split. Qed.

End LockOwnership.
